(** * Lead Email Splitter: a shallow embedding of [app.py]

    The program reads a table whose column [pii.Email_Array] holds, per
    record, the text of a list of e-mail addresses, parses every cell with
    [parse_email_array] and fans each record out into one row per address
    with [process_csv].

    The embedding follows the Python source function by function.  Python
    values are an inductive type, exceptions are an error monad, and the
    tables that the program copies and assigns to live in a store of
    frames addressed by references. *)

From Stdlib Require Import List String Ascii Bool Arith ZArith Lia.
Import ListNotations.

Set Warnings "-register-all".

Open Scope string_scope.
Open Scope list_scope.

(* ================================================================== *)
(** * Python values and exceptions *)

(** A float is only ever tested for being NaN here. *)
Inductive pyfloat : Type :=
| Fnan
| Finf (negative : bool)
| Fdyadic (mantissa exponent : Z).

(** The values a cell of a loaded table or a decoded literal can be.
    A string is its sequence of code points, every code point below 256.
    A set lists its elements in iteration order, a dict its items in
    insertion order. *)
Inductive pyval : Type :=
| PyNone
| PyEllipsis
| PyBool (b : bool)
| PyInt (z : Z)
| PyFloat (f : pyfloat)
| PyComplex (re im : pyfloat)
| PyStr (s : string)
| PyBytes (b : string)
| PyList (elts : list pyval)
| PyTuple (elts : list pyval)
| PySet (elts : list pyval)
| PyDict (items : list (pyval * pyval)).

(** The exception classes the program meets.  [OtherError] stands for any
    class outside the four named ones; none of them is caught anywhere in
    [app.py]. *)
Inductive exn : Type :=
| ValueError
| SyntaxError
| TypeError
| KeyError
| OtherError (name : string).

Inductive result (A : Type) : Type :=
| Ok (a : A)
| Raise (e : exn).

Arguments Ok {A} a.
Arguments Raise {A} e.

Definition bind {A B : Type} (m : result A) (k : A -> result B) : result B :=
  match m with
  | Ok a => k a
  | Raise e => Raise e
  end.

Notation "x <- m ;; k" := (bind m (fun x => k))
  (at level 61, m at next level, right associativity).

Notation "' pat <- m ;; k" :=
  (bind m (fun x => match x with pat => k end))
  (at level 61, pat pattern, m at next level, right associativity).

(** [try: body except (classes): handler] *)
Definition try_except {A : Type} (body : result A)
    (caught : exn -> bool) (handler : result A) : result A :=
  match body with
  | Ok a => Ok a
  | Raise e => if caught e then handler else Raise e
  end.

Definition mapM {A B : Type} (f : A -> result B) : list A -> result (list B) :=
  fix go (l : list A) : result (list B) :=
    match l with
    | [] => Ok []
    | a :: l' => b <- f a ;; bs <- go l' ;; Ok (b :: bs)
    end.

(** What a model answers on input it does not cover. *)
Definition unmodelled {A : Type} : result A :=
  Raise (OtherError "NotImplementedError").

(* ================================================================== *)
(** * The regular expression of the fallback, [re.findall] *)

(** Members of a character set [[...]]. *)
Inductive member : Type :=
| Word            (* \w *)
| Chr (a : ascii) (* one literal character *).

Definition charset : Type := list member.

(** One piece of a pattern: a set, or a set followed by [+]. *)
Inductive atom : Type :=
| One (c : charset)
| Plus (c : charset).

Definition regex : Type := list atom.

Definition between (lo hi n : nat) : bool := ((lo <=? n) && (n <=? hi))%nat.

(** [\w] on a [str] pattern: the alphanumeric code points and the
    underscore.  Below 256 these are the ASCII letters and digits, [_],
    and the Latin-1 letters and numerals. *)
Definition is_word (a : ascii) : bool :=
  let n := nat_of_ascii a in
  between 48 57 n || between 65 90 n || (n =? 95)%nat || between 97 122 n
  || (n =? 170)%nat || between 178 179 n || (n =? 181)%nat || between 185 186 n
  || between 188 190 n || between 192 214 n || between 216 246 n
  || between 248 255 n.

Definition in_item (i : member) (a : ascii) : bool :=
  match i with
  | Word => is_word a
  | Chr b => Ascii.eqb a b
  end.

Definition in_set (c : charset) (a : ascii) : bool :=
  existsb (fun i => in_item i a) c.

(** [re_match r s]: the length of the match of [r] at the start of [s],
    found as the backtracking matcher finds it: a [+] takes as many
    characters as it can and gives them back one at a time while the rest
    of the pattern fails. *)
Fixpoint re_match (r : regex) : list ascii -> option nat :=
  match r with
  | [] => fun _ => Some 0
  | One c :: r' => fun s =>
      match s with
      | a :: s' => if in_set c a then option_map S (re_match r' s') else None
      | [] => None
      end
  | Plus c :: r' =>
      fix more (s : list ascii) : option nat :=
        match s with
        | a :: s' =>
            if in_set c a then
              match more s' with
              | Some n => Some (S n)
              | None => option_map S (re_match r' s')
              end
            else None
        | [] => None
        end
  end.

(** The characters [i], ..., [i + n - 1] of a text. *)
Definition slice {A : Type} (i n : nat) (l : list A) : list A :=
  firstn n (skipn i l).

(** The scan of [re.findall]: at each position try the pattern; a match is
    recorded as (start, length) and the scan resumes where it ended,
    otherwise the scan moves on by one character.  [skip] counts the
    characters of the last match still to step over, [pos] is the
    position of the head of [s] in the whole text.  Every atom consumes a
    character, so the patterns used here have no empty match. *)
Fixpoint scan (r : regex) (skip pos : nat) (s : list ascii) : list (nat * nat) :=
  match s with
  | [] => []
  | _ :: s' =>
      match skip with
      | S k => scan r k (S pos) s'
      | O =>
          match re_match r s with
          | Some n => (pos, n) :: scan r (pred n) (S pos) s'
          | None => scan r 0 (S pos) s'
          end
      end
  end.

(** [re.findall(r, s)] for a pattern without groups: the matched texts. *)
Definition findall (r : regex) (s : string) : list string :=
  let l := list_ascii_of_string s in
  map (fun m => string_of_list_ascii (slice (fst m) (snd m) l)) (scan r 0 0 l).

(** [r'[\w\.-]+@[\w\.-]+'] *)
Definition email_chars : charset := [Word; Chr "."; Chr "-"].
Definition email_re : regex := [Plus email_chars; One [Chr "@"]; Plus email_chars].

(* ================================================================== *)
(** * [ast.literal_eval] on a fragment of the expression grammar

    The decoder of [parse_email_array] is the interpreter's own parser
    followed by [ast.literal_eval]'s walk over the tree.  What follows
    models both on the fragment made of names, decimal integers, plain
    quoted strings, the signs, [+] [-] [@], attribute access, parentheses,
    list, set and dict displays, and the keyword operators [or], [and],
    [not], [in], [is] and [if ... else].  Text outside the fragment is
    answered with [unmodelled].  The general results below hold for every decoder; this
    one serves the closed examples. *)

(** The keywords of the fragment: the operators, and the keywords of
    statements, which no expression holds. *)
Inductive keyword : Type :=
| KwOr | KwAnd | KwNot | KwIn | KwIs | KwIf | KwElse
| KwStatement.

Inductive token : Type :=
| TLBrack | TRBrack | TLParen | TRParen | TLBrace | TRBrace | TComma | TColon
| TPlus | TMinus | TAt | TDot | TEnd
| TKeyword (k : keyword)
| TName (id : string)
| TInt (z : Z)
| TStr (s : string).

Inductive constant : Type :=
| KNone
| KBool (b : bool)
| KInt (z : Z)
| KStr (s : string).

Inductive unaryop : Type := UAdd | USub | UNot.
Inductive operator : Type := Add | Sub | MatMult.
Inductive boolop : Type := BOr | BAnd.
Inductive cmpop : Type := CIn | CNotIn | CIs | CIsNot.

Inductive expr : Type :=
| EConstant (value : constant)
| EName (id : string)
| EList (elts : list expr)
| ETuple (elts : list expr)
| ESet (elts : list expr)
| EDict (keys values : list expr)
| EAttribute (value : expr) (attr : string)
| EUnaryOp (op : unaryop) (operand : expr)
| EBinOp (l : expr) (op : operator) (r : expr)
| EBoolOp (op : boolop) (values : list expr)
| ECompare (l : expr) (ops : list cmpop) (comparators : list expr)
| EIfExp (test body orelse : expr).

Definition is_digit (a : ascii) : bool := between 48 57 (nat_of_ascii a).

Definition is_name_start (a : ascii) : bool :=
  let n := nat_of_ascii a in
  between 65 90 n || (n =? 95)%nat || between 97 122 n.

Definition is_name_char (a : ascii) : bool := is_name_start a || is_digit a.

Definition is_quote (a : ascii) : bool :=
  let n := nat_of_ascii a in (n =? 34)%nat || (n =? 39)%nat.

Definition is_blank (a : ascii) : bool :=
  let n := nat_of_ascii a in (n =? 32)%nat || (n =? 9)%nat.

(** The longest prefix whose characters satisfy [p], and the rest. *)
Fixpoint span (p : ascii -> bool) (s : list ascii) : list ascii * list ascii :=
  match s with
  | a :: s' =>
      if p a then let (u, r) := span p s' in (a :: u, r) else ([], s)
  | [] => ([], [])
  end.

(** [str.lstrip(" \t")] *)
Definition lstrip (s : list ascii) : list ascii := snd (span is_blank s).

(** The keywords that only statements have: an expression with one of
    them is a syntax error.  [from] follows [yield] alone. *)
Definition statement_keywords : list string :=
  ["as"; "assert"; "break"; "class"; "continue"; "def"; "del"; "elif";
   "except"; "finally"; "from"; "global"; "import"; "nonlocal"; "pass";
   "raise"; "return"; "try"; "while"; "with"].

(** The keywords of expressions outside the fragment: comprehensions,
    [lambda], [await] and [yield]. *)
Definition other_keywords : list string :=
  ["async"; "await"; "for"; "lambda"; "yield"].

Definition keyword_of (id : string) : option keyword :=
  if String.eqb id "or" then Some KwOr
  else if String.eqb id "and" then Some KwAnd
  else if String.eqb id "not" then Some KwNot
  else if String.eqb id "in" then Some KwIn
  else if String.eqb id "is" then Some KwIs
  else if String.eqb id "if" then Some KwIf
  else if String.eqb id "else" then Some KwElse
  else if existsb (String.eqb id) statement_keywords then Some KwStatement
  else None.

Definition digit_value (a : ascii) : Z := Z.of_nat (nat_of_ascii a - 48).

Definition int_of_digits (ds : list ascii) : Z :=
  fold_left (fun acc d => (10 * acc + digit_value d)%Z) ds 0%Z.

(** The body of a string literal opened by [q]: up to the closing quote.
    A backslash or a line break inside is outside the fragment. *)
Fixpoint string_body (q : ascii) (s : list ascii)
  : result (list ascii * list ascii) :=
  match s with
  | [] => Raise SyntaxError
  | a :: s' =>
      if Ascii.eqb a q then Ok ([], s')
      else if (nat_of_ascii a =? 92)%nat || (nat_of_ascii a <? 32)%nat
              || (127 <? nat_of_ascii a)%nat
      then unmodelled
      else '(b, r) <- string_body q s' ;; Ok (a :: b, r)
  end.

Definition starts_with (p : ascii -> bool) (s : list ascii) : bool :=
  match s with
  | a :: _ => p a
  | [] => false
  end.

Definition punctuation (a : ascii) : option token :=
  match nat_of_ascii a with
  | 91 => Some TLBrack
  | 93 => Some TRBrack
  | 40 => Some TLParen
  | 41 => Some TRParen
  | 123 => Some TLBrace
  | 125 => Some TRBrace
  | 44 => Some TComma
  | 58 => Some TColon
  | 43 => Some TPlus
  | 45 => Some TMinus
  | 64 => Some TAt
  | _ => None
  end.

Fixpoint tokenize (fuel : nat) (s : list ascii) : result (list token) :=
  match fuel with
  | O => unmodelled
  | S fuel' =>
      match s with
      | [] => Ok [TEnd]
      | a :: s' =>
          if is_blank a then tokenize fuel' s'
          else if is_name_start a then
            let (w, r) := span is_name_char s in
            let id := string_of_list_ascii w in
            if starts_with is_quote r || existsb (String.eqb id) other_keywords
            then unmodelled
            else
              ts <- tokenize fuel' r ;;
              match keyword_of id with
              | Some k => Ok (TKeyword k :: ts)
              | None => Ok (TName id :: ts)
              end
          else if is_digit a then
            let (ds, r) := span is_digit s in
            if starts_with is_name_char r
               || starts_with (Ascii.eqb ".") r
               || (Ascii.eqb a "0" && (1 <? List.length ds)%nat)
            then unmodelled
            else ts <- tokenize fuel' r ;; Ok (TInt (int_of_digits ds) :: ts)
          else if is_quote a then
            match s' with
            | b :: c :: _ =>
                if Ascii.eqb b a && Ascii.eqb c a then unmodelled
                else '(body, r) <- string_body a s' ;;
                     ts <- tokenize fuel' r ;;
                     Ok (TStr (string_of_list_ascii body) :: ts)
            | _ => '(body, r) <- string_body a s' ;;
                   ts <- tokenize fuel' r ;;
                   Ok (TStr (string_of_list_ascii body) :: ts)
            end
          else if Ascii.eqb a "." then
            if starts_with is_digit s' || starts_with (Ascii.eqb ".") s'
            then unmodelled
            else ts <- tokenize fuel' s' ;; Ok (TDot :: ts)
          else
            match punctuation a with
            | Some t => ts <- tokenize fuel' s' ;; Ok (t :: ts)
            | None => unmodelled
            end
      end
  end.

(** [None], [True] and [False] are keywords that spell constants. *)
Definition constant_name (id : string) : bool :=
  String.eqb id "None" || String.eqb id "True" || String.eqb id "False".

Definition name_or_constant (id : string) : expr :=
  if String.eqb id "None" then EConstant KNone
  else if String.eqb id "True" then EConstant (KBool true)
  else if String.eqb id "False" then EConstant (KBool false)
  else EName id.

(** Adjacent string literals are one constant. *)
Fixpoint string_run (acc : string) (ts : list token) : string * list token :=
  match ts with
  | TStr s :: ts' => string_run (acc ++ s) ts'
  | _ => (acc, ts)
  end.

Definition closes (close t : token) : bool :=
  match close, t with
  | TRBrack, TRBrack | TRParen, TRParen | TRBrace, TRBrace | TEnd, TEnd => true
  | _, _ => false
  end.

(** Attribute access after a primary; a keyword is no attribute name.  A
    call or a subscript there is outside the fragment. *)
Fixpoint p_trailers (fuel : nat) (e : expr) (ts : list token)
  : result (expr * list token) :=
  match fuel with
  | O => unmodelled
  | S fuel' =>
      match ts with
      | TDot :: TName id :: r =>
          if constant_name id then Raise SyntaxError
          else p_trailers fuel' (EAttribute e id) r
      | TDot :: _ => Raise SyntaxError
      | TLParen :: _ | TLBrack :: _ => unmodelled
      | _ => Ok (e, ts)
      end
  end.

(** The grammar, by recursive descent:
      expression  := disjunction ['if' disjunction 'else' expression]
      disjunction := conjunction ('or' conjunction)*
      conjunction := inversion ('and' inversion)*
      inversion   := 'not' inversion | comparison
      comparison  := sum (('in' | 'not' 'in' | 'is' | 'is' 'not') sum)*
      sum         := term (('+' | '-') term)*
      term        := factor ('@' factor)*
      factor      := ('+' | '-') factor | primary
      primary     := atom ('.' NAME)*
      atom        := NAME | INT | STR+ | '(' ... ')' | '[' ... ']' | '{' ... '}'
    with [p_elems] for the elements of a display up to its closing
    token and [p_items] for the [key: value] items of a dict display. *)
Fixpoint p_expr (fuel : nat) (ts : list token) : result (expr * list token) :=
  match fuel with
  | O => unmodelled
  | S fuel' =>
      '(e, r) <- p_or fuel' ts ;;
      match r with
      | TKeyword KwIf :: r2 =>
          '(test, r3) <- p_or fuel' r2 ;;
          match r3 with
          | TKeyword KwElse :: r4 =>
              '(orelse, r5) <- p_expr fuel' r4 ;; Ok (EIfExp test e orelse, r5)
          | _ => Raise SyntaxError
          end
      | _ => Ok (e, r)
      end
  end
with p_or (fuel : nat) (ts : list token) : result (expr * list token) :=
  match fuel with
  | O => unmodelled
  | S fuel' =>
      '(e, r) <- p_and fuel' ts ;;
      match r with
      | TKeyword KwOr :: _ =>
          '(es, r2) <- p_or_rest fuel' r ;; Ok (EBoolOp BOr (e :: es), r2)
      | _ => Ok (e, r)
      end
  end
with p_or_rest (fuel : nat) (ts : list token)
  : result (list expr * list token) :=
  match fuel with
  | O => unmodelled
  | S fuel' =>
      match ts with
      | TKeyword KwOr :: r =>
          '(e, r2) <- p_and fuel' r ;;
          '(es, r3) <- p_or_rest fuel' r2 ;; Ok (e :: es, r3)
      | _ => Ok ([], ts)
      end
  end
with p_and (fuel : nat) (ts : list token) : result (expr * list token) :=
  match fuel with
  | O => unmodelled
  | S fuel' =>
      '(e, r) <- p_not fuel' ts ;;
      match r with
      | TKeyword KwAnd :: _ =>
          '(es, r2) <- p_and_rest fuel' r ;; Ok (EBoolOp BAnd (e :: es), r2)
      | _ => Ok (e, r)
      end
  end
with p_and_rest (fuel : nat) (ts : list token)
  : result (list expr * list token) :=
  match fuel with
  | O => unmodelled
  | S fuel' =>
      match ts with
      | TKeyword KwAnd :: r =>
          '(e, r2) <- p_not fuel' r ;;
          '(es, r3) <- p_and_rest fuel' r2 ;; Ok (e :: es, r3)
      | _ => Ok ([], ts)
      end
  end
with p_not (fuel : nat) (ts : list token) : result (expr * list token) :=
  match fuel with
  | O => unmodelled
  | S fuel' =>
      match ts with
      | TKeyword KwNot :: r =>
          '(e, r2) <- p_not fuel' r ;; Ok (EUnaryOp UNot e, r2)
      | _ => p_cmp fuel' ts
      end
  end
with p_cmp (fuel : nat) (ts : list token) : result (expr * list token) :=
  match fuel with
  | O => unmodelled
  | S fuel' =>
      '(e, r) <- p_sum fuel' ts ;;
      '(pairs, r2) <- p_cmp_rest fuel' r ;;
      match pairs with
      | [] => Ok (e, r2)
      | _ => Ok (ECompare e (map fst pairs) (map snd pairs), r2)
      end
  end
with p_cmp_rest (fuel : nat) (ts : list token)
  : result (list (cmpop * expr) * list token) :=
  match fuel with
  | O => unmodelled
  | S fuel' =>
      match ts with
      | TKeyword KwIn :: r =>
          '(e, r2) <- p_sum fuel' r ;;
          '(pairs, r3) <- p_cmp_rest fuel' r2 ;; Ok ((CIn, e) :: pairs, r3)
      | TKeyword KwNot :: TKeyword KwIn :: r =>
          '(e, r2) <- p_sum fuel' r ;;
          '(pairs, r3) <- p_cmp_rest fuel' r2 ;; Ok ((CNotIn, e) :: pairs, r3)
      | TKeyword KwIs :: TKeyword KwNot :: r =>
          '(e, r2) <- p_sum fuel' r ;;
          '(pairs, r3) <- p_cmp_rest fuel' r2 ;; Ok ((CIsNot, e) :: pairs, r3)
      | TKeyword KwIs :: r =>
          '(e, r2) <- p_sum fuel' r ;;
          '(pairs, r3) <- p_cmp_rest fuel' r2 ;; Ok ((CIs, e) :: pairs, r3)
      | _ => Ok ([], ts)
      end
  end
with p_sum (fuel : nat) (ts : list token) : result (expr * list token) :=
  match fuel with
  | O => unmodelled
  | S fuel' => '(e, r) <- p_term fuel' ts ;; p_sum_rest fuel' e r
  end
with p_sum_rest (fuel : nat) (e : expr) (ts : list token)
  : result (expr * list token) :=
  match fuel with
  | O => unmodelled
  | S fuel' =>
      match ts with
      | TPlus :: r =>
          '(e2, r2) <- p_term fuel' r ;; p_sum_rest fuel' (EBinOp e Add e2) r2
      | TMinus :: r =>
          '(e2, r2) <- p_term fuel' r ;; p_sum_rest fuel' (EBinOp e Sub e2) r2
      | _ => Ok (e, ts)
      end
  end
with p_term (fuel : nat) (ts : list token) : result (expr * list token) :=
  match fuel with
  | O => unmodelled
  | S fuel' => '(e, r) <- p_factor fuel' ts ;; p_term_rest fuel' e r
  end
with p_term_rest (fuel : nat) (e : expr) (ts : list token)
  : result (expr * list token) :=
  match fuel with
  | O => unmodelled
  | S fuel' =>
      match ts with
      | TAt :: r =>
          '(e2, r2) <- p_factor fuel' r ;;
          p_term_rest fuel' (EBinOp e MatMult e2) r2
      | _ => Ok (e, ts)
      end
  end
with p_factor (fuel : nat) (ts : list token) : result (expr * list token) :=
  match fuel with
  | O => unmodelled
  | S fuel' =>
      match ts with
      | TPlus :: r => '(e, r2) <- p_factor fuel' r ;; Ok (EUnaryOp UAdd e, r2)
      | TMinus :: r => '(e, r2) <- p_factor fuel' r ;; Ok (EUnaryOp USub e, r2)
      | _ => '(e, r) <- p_atom fuel' ts ;; p_trailers fuel' e r
      end
  end
with p_atom (fuel : nat) (ts : list token) : result (expr * list token) :=
  match fuel with
  | O => unmodelled
  | S fuel' =>
      match ts with
      | TName id :: r => Ok (name_or_constant id, r)
      | TInt z :: r => Ok (EConstant (KInt z), r)
      | TStr s :: r => let (s', r') := string_run s r in Ok (EConstant (KStr s'), r')
      | TLBrack :: r => '(es, r2) <- p_elems fuel' TRBrack r ;; Ok (EList es, r2)
      | TLParen :: TRParen :: r => Ok (ETuple [], r)
      | TLParen :: r =>
          '(e, r2) <- p_expr fuel' r ;;
          match r2 with
          | TRParen :: r3 => Ok (e, r3)
          | TComma :: r3 =>
              '(es, r4) <- p_elems fuel' TRParen r3 ;; Ok (ETuple (e :: es), r4)
          | _ => Raise SyntaxError
          end
      | TLBrace :: TRBrace :: r => Ok (EDict [] [], r)
      | TLBrace :: r =>
          '(e, r2) <- p_expr fuel' r ;;
          match r2 with
          | TRBrace :: r3 => Ok (ESet [e], r3)
          | TComma :: r3 =>
              '(es, r4) <- p_elems fuel' TRBrace r3 ;; Ok (ESet (e :: es), r4)
          | TColon :: r3 =>
              '(v, r4) <- p_expr fuel' r3 ;;
              match r4 with
              | TRBrace :: r5 => Ok (EDict [e] [v], r5)
              | TComma :: r5 =>
                  '(kvs, r6) <- p_items fuel' r5 ;;
                  Ok (EDict (e :: map fst kvs) (v :: map snd kvs), r6)
              | _ => Raise SyntaxError
              end
          | _ => Raise SyntaxError
          end
      | _ => Raise SyntaxError
      end
  end
with p_elems (fuel : nat) (close : token) (ts : list token)
  : result (list expr * list token) :=
  match fuel with
  | O => unmodelled
  | S fuel' =>
      match ts with
      | [] => Raise SyntaxError
      | t :: r =>
          if closes close t then Ok ([], r)
          else
            '(e, r2) <- p_expr fuel' ts ;;
            match r2 with
            | TComma :: r3 =>
                '(es, r4) <- p_elems fuel' close r3 ;; Ok (e :: es, r4)
            | t2 :: r3 => if closes close t2 then Ok ([e], r3) else Raise SyntaxError
            | [] => Raise SyntaxError
            end
      end
  end
with p_items (fuel : nat) (ts : list token)
  : result (list (expr * expr) * list token) :=
  match fuel with
  | O => unmodelled
  | S fuel' =>
      match ts with
      | [] => Raise SyntaxError
      | TRBrace :: r => Ok ([], r)
      | _ =>
          '(k, r2) <- p_expr fuel' ts ;;
          match r2 with
          | TColon :: r3 =>
              '(v, r4) <- p_expr fuel' r3 ;;
              match r4 with
              | TComma :: r5 =>
                  '(kvs, r6) <- p_items fuel' r5 ;; Ok ((k, v) :: kvs, r6)
              | TRBrace :: r5 => Ok ([(k, v)], r5)
              | _ => Raise SyntaxError
              end
          | _ => Raise SyntaxError
          end
      end
  end.

(** [ast.parse(source, mode='eval').body]: one expression, or a tuple
    written without parentheses, up to the end of the text.  The limits
    of the interpreter on nesting and on recursion are not modelled, and
    text of more than 200 characters, which alone can reach them, is left
    out. *)
Definition ast_parse (s : list ascii) : result expr :=
  if (200 <? List.length s)%nat then unmodelled
  else
    ts <- tokenize (S (List.length s)) s ;;
    let fuel := 16 * S (List.length ts) in
    '(e, r) <- p_expr fuel ts ;;
    match r with
    | [TEnd] => Ok e
    | TComma :: r2 =>
        '(es, r3) <- p_elems fuel TEnd r2 ;;
        match r3 with
        | [] => Ok (ETuple (e :: es))
        | _ => Raise SyntaxError
        end
    | _ => Raise SyntaxError
    end.

Definition constant_value (k : constant) : pyval :=
  match k with
  | KNone => PyNone
  | KBool b => PyBool b
  | KInt z => PyInt z
  | KStr s => PyStr s
  end.

(** [_convert_num]: a constant whose type is [int], [float] or [complex];
    the fragment has the first only. *)
Definition _convert_num (node : expr) : result pyval :=
  match node with
  | EConstant (KInt z) => Ok (PyInt z)
  | _ => Raise ValueError
  end.

Definition _convert_signed_num (node : expr) : result pyval :=
  match node with
  | EUnaryOp UNot _ => _convert_num node
  | EUnaryOp op operand =>
      v <- _convert_num operand ;;
      match op, v with
      | USub, PyInt z => Ok (PyInt (- z))
      | _, _ => Ok v
      end
  | _ => _convert_num node
  end.

(** [hash(v)] answers for everything but a list, a set, a dict and a
    tuple that holds one of them. *)
Fixpoint hashable (v : pyval) : bool :=
  match v with
  | PyList _ | PySet _ | PyDict _ => false
  | PyTuple elts => forallb hashable elts
  | _ => true
  end.

(** [a == b] on the hashable values of the fragment: [None], booleans,
    integers, strings and tuples of them.  A boolean is the integer 0 or
    1. *)
Fixpoint key_eq (a b : pyval) : bool :=
  match a, b with
  | PyNone, PyNone => true
  | PyBool x, PyBool y => Bool.eqb x y
  | PyBool x, PyInt z | PyInt z, PyBool x => Z.eqb z (if x then 1 else 0)
  | PyInt x, PyInt y => Z.eqb x y
  | PyStr x, PyStr y => String.eqb x y
  | PyTuple xs, PyTuple ys =>
      (fix go (xs ys : list pyval) : bool :=
         match xs, ys with
         | [], [] => true
         | x :: xs', y :: ys' => key_eq x y && go xs' ys'
         | _, _ => false
         end) xs ys
  | _, _ => false
  end.

(** [d[k] = v]: an equal key keeps its place and its first spelling. *)
Fixpoint dict_set (d : list (pyval * pyval)) (k v : pyval)
  : list (pyval * pyval) :=
  match d with
  | [] => [(k, v)]
  | (k0, v0) :: d' =>
      if key_eq k0 k then (k0, v) :: d' else (k0, v0) :: dict_set d' k v
  end.

(** [set.add]: an element equal to one already there is dropped. *)
Definition set_add (s : list pyval) (v : pyval) : list pyval :=
  if existsb (fun u => key_eq u v) s then s else s ++ [v].

(** [set(vs)] for hashed elements.  The iteration order of a set of two
    or more elements depends on the hashes, which for strings change from
    one run of the interpreter to the next: such a set is left out. *)
Definition py_set (vs : list pyval) : result pyval :=
  match fold_left set_add vs [] with
  | _ :: _ :: _ => unmodelled
  | s => Ok (PySet s)
  end.

(** [dict(items)] *)
Definition py_dict (items : list (pyval * pyval)) : pyval :=
  PyDict (fold_left (fun d kv => dict_set d (fst kv) (snd kv)) items []).

(** What a set or a dict does with an element or a key first. *)
Definition hashed (v : pyval) : result pyval :=
  if hashable v then Ok v else Raise TypeError.

(** [zip(map(convert, keys), results)] as [dict(...)] consumes it: the
    items, each made when its turn comes by converting the key, taking
    the value's conversion and hashing the key.  [zip] stops at the
    shorter of the two. *)
Definition zip_items {A : Type} (convert : A -> result pyval)
  : list A -> list (result pyval) -> result (list (pyval * pyval)) :=
  fix zip (ks : list A) (vs : list (result pyval)) :=
    match ks, vs with
    | k :: ks', v :: vs' =>
        key <- convert k ;;
        value <- v ;;
        key <- hashed key ;;
        items <- zip ks' vs' ;;
        Ok ((key, value) :: items)
    | _, _ => Ok []
    end.

(** [_convert].  The sum of a real and a complex constant needs a complex
    right operand, which the fragment does not have, so a [BinOp] ends in
    [_convert_signed_num node] after its operands are converted.  A set is
    built from the lazy [map(_convert, node.elts)], a dict from the [zip]
    of two such maps: every element is converted and then hashed before
    the next one is converted, a dict's value is converted before its key
    is hashed, and keys without a value are a malformed node.  The
    conversions of the values go to [zip_items] as a list of results, of
    which it looks at one per item. *)
Fixpoint _convert (node : expr) : result pyval :=
  match node with
  | EConstant value => Ok (constant_value value)
  | ETuple elts => vs <- mapM _convert elts ;; Ok (PyTuple vs)
  | EList elts => vs <- mapM _convert elts ;; Ok (PyList vs)
  | ESet elts =>
      vs <- mapM (fun elt => v <- _convert elt ;; hashed v) elts ;; py_set vs
  | EDict keys values =>
      if negb (List.length keys =? List.length values)%nat then Raise ValueError
      else
        items <- zip_items _convert keys (map _convert values) ;;
        Ok (py_dict items)
  | EBinOp l Add r | EBinOp l Sub r =>
      _ <- _convert_signed_num l ;;
      _ <- _convert_num r ;;
      _convert_signed_num node
  | _ => _convert_signed_num node
  end.

(** [ast.literal_eval(s)] for a [str] argument. *)
Definition literal_eval_lit (s : string) : result pyval :=
  node <- ast_parse (lstrip (list_ascii_of_string s)) ;;
  _convert node.

(* ================================================================== *)
(** * [parse_email_array] *)

(** The decoder [ast.literal_eval] on a [str] argument: the parser of the
    interpreter is not part of the program, so the program is modelled
    over any decoder.  [ValueError] and [SyntaxError] stand for the
    classes with their subclasses. *)
Class Decoder : Type := { literal_eval_str : string -> result pyval }.

#[export] Instance lit_decoder : Decoder := {| literal_eval_str := literal_eval_lit |}.

Definition is_nan (f : pyfloat) : bool :=
  match f with
  | Fnan => true
  | _ => false
  end.

(** The truth value of [pd.isna(x)].  For a list pandas answers with an
    array, whose truth value depends on its size and on the version of the
    array library: a cell of a loaded table is never a list, and the case
    is left out. *)
Definition pd_isna (x : pyval) : result bool :=
  match x with
  | PyNone => Ok true
  | PyFloat f => Ok (is_nan f)
  | PyComplex re im => Ok (is_nan re || is_nan im)
  | PyList _ => unmodelled
  | _ => Ok false
  end.

(** [x == s] for a string [s]. *)
Definition eq_str (x : pyval) (s : string) : bool :=
  match x with
  | PyStr t => String.eqb t s
  | _ => false
  end.

(** [ast.literal_eval(x)]: anything that is neither a string nor a tree
    is a malformed node. *)
Definition ast_literal_eval `{Decoder} (x : pyval) : result pyval :=
  match x with
  | PyStr s => literal_eval_str s
  | _ => Raise ValueError
  end.

(** [re.findall(pattern, x)] with a [str] pattern. *)
Definition re_findall (r : regex) (x : pyval) : result pyval :=
  match x with
  | PyStr s => Ok (PyList (map PyStr (findall r s)))
  | _ => Raise TypeError
  end.

(** [except (ValueError, SyntaxError)] *)
Definition decode_failure (e : exn) : bool :=
  match e with
  | ValueError | SyntaxError => true
  | _ => false
  end.

Definition parse_email_array `{Decoder} (email_array_str : pyval) : result pyval :=
  na <- pd_isna email_array_str ;;
  if na || eq_str email_array_str "[]" then Ok (PyList [])
  else
    try_except (ast_literal_eval email_array_str)
      decode_failure
      (re_findall email_re email_array_str).

(* ================================================================== *)
(** * Tables *)

(** A row: its index label and its cells, one per column. *)
Record row : Type := { label : nat; cells : list pyval }.

(** A [DataFrame]: column names in order, and rows in order.  A frame
    read by the loader has distinct column names. *)
Record DataFrame : Type := { columns : list string; rows : list row }.

Record Stats : Type :=
  { rows_before : nat; rows_after : nat; emails_found : nat }.

Fixpoint index_of (name : string) (cols : list string) : option nat :=
  match cols with
  | [] => None
  | c :: cols' =>
      if String.eqb c name then Some 0 else option_map S (index_of name cols')
  end.

Fixpoint set_nth {A : Type} (k : nat) (v : A) (l : list A) : list A :=
  match l, k with
  | [], _ => []
  | _ :: l', O => v :: l'
  | a :: l', S k' => a :: set_nth k' v l'
  end.

Definition cell (k : nat) (r : row) : pyval := nth k (cells r) (PyFloat Fnan).

(** [df.columns.is_unique] *)
Fixpoint unique (cols : list string) : bool :=
  match cols with
  | [] => true
  | c :: cols' => negb (existsb (String.eqb c) cols') && unique cols'
  end.

(** [df[name]]: the values of a column, [KeyError] when there is none.
    For a name that occurs more than once pandas answers with a table of
    the columns of that name; [pd.read_csv] renames repeated names, so a
    loaded table has none, and the first column of the name is taken
    here. *)
Definition column_values (df : DataFrame) (name : string) : result (list pyval) :=
  match index_of name (columns df) with
  | Some k => Ok (map (cell k) (rows df))
  | None => Raise KeyError
  end.

(** The cells of a row after [df[name] = ...] gave it the value [v]: an
    existing column keeps its place, a new one goes last. *)
Definition assign (cols : list string) (name : string) (v : pyval)
    (cs : list pyval) : list pyval :=
  match index_of name cols with
  | Some k => set_nth k v cs
  | None => cs ++ [v]
  end.

Definition assign_row (cols : list string) (name : string)
    (rv : row * pyval) : row :=
  {| label := label (fst rv); cells := assign cols name (snd rv) (cells (fst rv)) |}.

(** The columns after [df[name] = ...]. *)
Definition columns_with (cols : list string) (name : string) : list string :=
  match index_of name cols with
  | Some _ => cols
  | None => cols ++ [name]
  end.

(** [df[name] = values], one value per row. *)
Definition set_column (df : DataFrame) (name : string) (values : list pyval)
  : result DataFrame :=
  if negb (List.length values =? List.length (rows df))%nat then Raise ValueError
  else
    Ok {| columns := columns_with (columns df) name;
          rows := map (assign_row (columns df) name) (combine (rows df) values) |}.

(** [len(v)] *)
Definition py_len (v : pyval) : result nat :=
  match v with
  | PyStr s | PyBytes s => Ok (String.length s)
  | PyList l | PyTuple l | PySet l => Ok (List.length l)
  | PyDict kv => Ok (List.length kv)
  | _ => Raise TypeError
  end.

(** [df[mask]] for a boolean mask with one entry per row. *)
Definition select_rows (df : DataFrame) (mask : list bool) : DataFrame :=
  {| columns := columns df;
     rows := map fst (filter snd (combine (rows df) mask)) |}.

(** pandas' [is_list_like], sets allowed: iterables other than [str] and
    [bytes]. *)
Definition is_list_like (v : pyval) : bool :=
  match v with
  | PyList _ | PyTuple _ | PySet _ | PyDict _ => true
  | _ => false
  end.

(** [list(v)] for a list-like [v]; a dict gives its keys. *)
Definition py_list (v : pyval) : list pyval :=
  match v with
  | PyList l | PyTuple l | PySet l => l
  | PyDict kv => map fst kv
  | _ => []
  end.

(** What one cell becomes under [explode]: a list-like gives its elements,
    an empty one gives NaN, a scalar stays. *)
Definition explode_cell (v : pyval) : list pyval :=
  if is_list_like v then
    match py_list v with
    | [] => [PyFloat Fnan]
    | l => l
    end
  else [v].

Definition explode_row (k : nat) (r : row) : list row :=
  map (fun v => {| label := label r; cells := set_nth k v (cells r) |})
      (explode_cell (cell k r)).

(** [df.explode(column)]: each row is repeated once per element of its
    cell in [column], index label included, in the order of the rows and
    of the elements. *)
Definition explode (df : DataFrame) (column : string) : result DataFrame :=
  if negb (unique (columns df)) then Raise ValueError
  else
    match index_of column (columns df) with
    | Some k => Ok {| columns := columns df;
                      rows := flat_map (explode_row k) (rows df) |}
    | None => Raise KeyError
    end.

(** [df.rename(columns={old: new})] *)
Definition rename (df : DataFrame) (old new : string) : DataFrame :=
  {| columns := map (fun c => if String.eqb c old then new else c) (columns df);
     rows := rows df |}.

(* ================================================================== *)
(** * The store of frames *)

(** A frame is a mutable object: the program holds references to frames,
    and [df[name] = ...] changes the frame a reference points to.  The
    store maps references to frames; [next] is the first unused one. *)
Record store : Type := { frames : nat -> DataFrame; next : nat }.

Definition Py (A : Type) : Type := store -> result A * store.

Definition ret {A : Type} (a : A) : Py A := fun st => (Ok a, st).

Definition lift {A : Type} (r : result A) : Py A := fun st => (r, st).

Definition bind_py {A B : Type} (m : Py A) (k : A -> Py B) : Py B :=
  fun st =>
    match m st with
    | (Ok a, st') => k a st'
    | (Raise e, st') => (Raise e, st')
    end.

Notation "x <~ m ;; k" := (bind_py m (fun x => k))
  (at level 61, m at next level, right associativity).

Notation "' pat <~ m ;; k" :=
  (bind_py m (fun x => match x with pat => k end))
  (at level 61, pat pattern, m at next level, right associativity).

Definition update (fs : nat -> DataFrame) (r : nat) (f : DataFrame)
  : nat -> DataFrame :=
  fun r' => if (r' =? r)%nat then f else fs r'.

(** A new object. *)
Definition new_frame (f : DataFrame) : Py nat :=
  fun st => (Ok (next st),
             {| frames := update (frames st) (next st) f; next := S (next st) |}).

Definition load (r : nat) : Py DataFrame := fun st => (Ok (frames st r), st).

Definition save (r : nat) (f : DataFrame) : Py unit :=
  fun st => (Ok tt, {| frames := update (frames st) r f; next := next st |}).

(** [df.copy()] *)
Definition copy (df : nat) : Py nat := f <~ load df ;; new_frame f.

(** [df[name]] *)
Definition getitem (df : nat) (name : string) : Py (list pyval) :=
  f <~ load df ;; lift (column_values f name).

(** [df[name] = values]: the frame itself changes. *)
Definition setitem (df : nat) (name : string) (values : list pyval) : Py unit :=
  f <~ load df ;; f' <~ lift (set_column f name values) ;; save df f'.

(** [df[mask]] *)
Definition getitem_mask (df : nat) (mask : list bool) : Py nat :=
  f <~ load df ;; new_frame (select_rows f mask).

(** [series.apply(func)] *)
Definition apply {A : Type} (func : pyval -> result A) (series : list pyval)
  : Py (list A) :=
  lift (mapM func series).

Definition df_explode (df : nat) (column : string) : Py nat :=
  f <~ load df ;; f' <~ lift (explode f column) ;; new_frame f'.

Definition df_rename (df : nat) (old new : string) : Py nat :=
  f <~ load df ;; new_frame (rename f old new).

(** [len(df)] *)
Definition len (df : nat) : Py nat := f <~ load df ;; ret (List.length (rows f)).

(** [df.head()] *)
Definition head (df : nat) : Py DataFrame :=
  f <~ load df ;; ret {| columns := columns f; rows := firstn 5 (rows f) |}.

(* ================================================================== *)
(** * [process_csv] *)

Definition process_csv `{Decoder} (df : nat) : Py (nat * Stats) :=
  (* Make a copy of the dataframe to avoid modifying the original *)
  df_copy <~ copy df ;;
  (* Parse the email array column *)
  email_array <~ getitem df_copy "pii.Email_Array" ;;
  parsed <~ apply parse_email_array email_array ;;
  _ <~ setitem df_copy "parsed_emails" parsed ;;
  (* Count emails before processing *)
  parsed_emails <~ getitem df_copy "parsed_emails" ;;
  lens <~ apply py_len parsed_emails ;;
  let total_emails_before := list_sum lens in
  total_rows_before <~ len df_copy ;;
  (* Filter out rows with no emails *)
  parsed_emails <~ getitem df_copy "parsed_emails" ;;
  lens <~ apply py_len parsed_emails ;;
  selected <~ getitem_mask df_copy (map (fun n => (0 <? n)%nat) lens) ;;
  df_with_emails <~ copy selected ;;
  (* Explode the dataframe to have one row per email *)
  df_exploded <~ df_explode df_with_emails "parsed_emails" ;;
  (* Rename the column to 'email' for clarity *)
  df_exploded <~ df_rename df_exploded "parsed_emails" "email" ;;
  (* Count stats after processing *)
  total_rows_after <~ len df_exploded ;;
  ret (df_exploded,
       {| rows_before := total_rows_before;
          rows_after := total_rows_after;
          emails_found := total_emails_before |}).

(* ================================================================== *)
(** * [main] *)

(** The calls to the page, in order.  The table of the download button
    stands for its text, the counts of [st_distribution] for the table of
    their frequencies. *)
Inductive st_call : Type :=
| st_title (body : string)
| st_write (body : string)
| st_file_uploader (caption : string) (type : string)
| st_subheader (body : string)
| st_dataframe (data : DataFrame)
| st_error (body : string)
| st_spinner (text : string)
| st_success (stats : Stats)
| st_download_button (caption : string) (data : DataFrame)
                     (file_name : string) (mime : string)
| st_expander (caption : string)
| st_distribution (email_counts : list nat).

(** A line break. *)
Definition nl : string := String (ascii_of_nat 10) EmptyString.

(** The text of the [st.write] call, a triple-quoted literal: it starts
    with a line break, its lines keep the indentation of the source, the
    line that ends in [addresses] keeps its trailing blank, and it ends with
    the indentation of the closing quotes. *)
Definition purpose_text : string :=
  nl ++ "    ## Purpose" ++
  nl ++ "    This app takes a CSV file with leads where some rows have multiple email addresses " ++
  nl ++ "    and splits them into separate rows, one for each email address." ++
  nl ++ "    " ++
  nl ++ "    ## How to use" ++
  nl ++ "    1. Upload your CSV file using the uploader below" ++
  nl ++ "    2. The app will process the file and show you the results" ++
  nl ++ "    3. You can download the processed file using the download button" ++
  nl ++ "    ".

Definition page_head : list st_call :=
  [st_title "Lead Email Splitter";
   st_write purpose_text;
   st_file_uploader "Choose a CSV file" "csv"].

Definition missing_column_message : string :=
  "The CSV file must contain a column named 'pii.Email_Array' with email addresses.".

(** [main], given what the uploader returned: nothing, or the table that
    [pd.read_csv] made of the uploaded file.  The result is the list of
    the calls made on the page, in order; [with st.spinner(...)] and
    [with st.expander(...)] are the calls that open the blocks.  A run
    that raises leaves no list: the calls made before the exception are
    not part of the model.  [st_success] carries the three counts that
    the message is formatted from, [st_download_button] the table whose
    [to_csv(index=False)] text is offered, and [st_distribution] the
    series [email_counts] whose [value_counts()] table, under the column
    names [Number of Emails] and [Count of Leads], is the last
    [st.dataframe] call. *)
Definition main `{Decoder} (uploaded_file : option DataFrame) : Py (list st_call) :=
  match uploaded_file with
  | None => ret page_head
  | Some table =>
      df <~ new_frame table ;;
      shown <~ head df ;;
      let page := page_head ++ [st_subheader "Original Data (First 5 Rows)";
                                st_dataframe shown] in
      f <~ load df ;;
      (* Check if the required column exists *)
      if negb (existsb (String.eqb "pii.Email_Array") (columns f)) then
        ret (page ++ [st_error missing_column_message])
      else
        (* Process the CSV *)
        '(df_processed, stats) <~ process_csv df ;;
        shown <~ head df_processed ;;
        csv <~ load df_processed ;;
        (* Show additional details about the data *)
        email_array <~ getitem df "pii.Email_Array" ;;
        email_counts <~ apply (fun x => v <- parse_email_array x ;; py_len v)
                              email_array ;;
        ret (page ++ [st_spinner "Processing CSV...";
                      st_success stats;
                      st_subheader "Processed Data (First 5 Rows)";
                      st_dataframe shown;
                      st_download_button "Download Processed CSV" csv
                                         "processed_leads.csv" "text/csv";
                      st_expander "View Data Details";
                      st_subheader "Email Distribution";
                      st_distribution email_counts])
  end.

(** The state of a fresh run: no frame yet. *)
Definition empty_frame : DataFrame := {| columns := []; rows := [] |}.
Definition empty_store : store := {| frames := fun _ => empty_frame; next := 0 |}.

(** A store holding one table, at reference 0. *)
Definition store_of (table : DataFrame) : store :=
  {| frames := update (frames empty_store) 0 table; next := 1 |}.

(** The table of the specification's end-to-end example. *)
Definition leads : DataFrame :=
  {| columns := ["id"; "pii.Email_Array"];
     rows := [ {| label := 0; cells := [PyInt 1; PyStr "[a@x.com, b@x.com]"] |};
               {| label := 1; cells := [PyInt 2; PyStr "[]"] |};
               {| label := 2; cells := [PyInt 3; PyStr "[c@y.com]"] |} ] |}.

(* ================================================================== *)
(** * The words of the specification about the fallback *)

Definition email_char (a : ascii) : bool := in_set email_chars a.

(** A text made of one or more word characters, dots or hyphens, then
    [@], then one or more word characters, dots or hyphens. *)
Definition email_like (u : list ascii) : Prop :=
  exists l d,
    u = l ++ "@"%char :: d /\ l <> [] /\ d <> []
    /\ forallb email_char l = true /\ forallb email_char d = true.

(** The substring of length [n] at position [i] matches the pattern. *)
Definition occurs_at (s : list ascii) (i n : nat) : Prop :=
  i + n <= List.length s /\ email_like (slice i n s).

(** A maximal matching substring: no matching substring contains it and
    is longer. *)
Definition maximal_at (s : list ascii) (i n : nat) : Prop :=
  occurs_at s i n
  /\ forall i' n', occurs_at s i' n' -> i' <= i -> i + n <= i' + n' ->
                   i' = i /\ n' = n.

(** Matches listed from left to right, each starting at or after the end
    of the one before. *)
Fixpoint in_order (from : nat) (ms : list (nat * nat)) : Prop :=
  match ms with
  | [] => True
  | m :: ms' => from <= fst m /\ 0 < snd m /\ in_order (fst m + snd m) ms'
  end.

(** The matched texts of a list of (start, length). *)
Definition texts (s : string) (ms : list (nat * nat)) : list pyval :=
  map (fun m => PyStr (string_of_list_ascii
                         (slice (fst m) (snd m) (list_ascii_of_string s)))) ms.

(* ================================================================== *)
(** * What the scan maintains *)

(** The character before position [i] is no e-mail character. *)
Definition left_free (s : list ascii) (i : nat) : Prop :=
  i = 0 \/ exists c, nth_error s (i - 1) = Some c /\ email_char c = false.

(** A match as the scan can report it at position [i]: the pattern
    matches there with length [n], and the position starts a run. *)
Definition match_at (s : list ascii) (i n : nat) : Prop :=
  re_match email_re (skipn i s) = Some n /\ left_free s i.

(** The head of [s] is a whole run, [@], and a whole run. *)
Definition run_match (s l d post : list ascii) : Prop :=
  s = l ++ "@"%char :: d ++ post /\ l <> [] /\ d <> []
  /\ forallb email_char l = true /\ forallb email_char d = true
  /\ starts_with email_char post = false.

(** What the scan knows when it stands before [s] with [pre] behind it. *)
Definition scan_inv (pre : list ascii) (skip : nat) (s : list ascii) : Prop :=
  match skip with
  | O => left_free (pre ++ s) (List.length pre) \/ re_match email_re s = None
  | S _ => skip <= List.length s /\ starts_with email_char (skipn skip s) = false
  end.

(* ================================================================== *)
(** * The words of the specification about the expansion *)

(** Every row has one cell per column. *)
Definition well_formed (t : DataFrame) : Prop :=
  Forall (fun r => List.length (cells r) = List.length (columns t)) (rows t).

(** The parsed value has a length, and it is not zero: the record is
    kept. *)
Definition kept (p : pyval) : bool :=
  match py_len p with
  | Ok n => (0 <? n)%nat
  | Raise _ => false
  end.

(** The rows one record becomes: one per element of its parsed value, in
    the order of the elements, each with the record's label and cells and
    the element in the column [parsed_emails]. *)
Definition fan_out (cols : list string) (rp : row * pyval) : list row :=
  map (fun v => assign_row cols "parsed_emails" (fst rp, v))
      (explode_cell (snd rp)).

(** The column of the program's input. *)
Definition email_array (t : DataFrame) : result (list pyval) :=
  column_values t "pii.Email_Array".

(** The claimed columns of the output: the array column replaced in
    place by [email]. *)
Definition replaced_in_place (cols : list string) : list string :=
  map (fun c => if String.eqb c "pii.Email_Array" then "email" else c) cols.

(** [r] extended by one cell. *)
Definition with_email (r : row) (e : pyval) : row :=
  {| label := label r; cells := cells r ++ [e] |}.

(** [str.isspace] on one character. *)
Definition is_space (a : ascii) : bool :=
  let n := nat_of_ascii a in
  between 9 13 n || between 28 32 n || (n =? 133)%nat || (n =? 160)%nat.

(* ================================================================== *)
(** * Small tables *)

(** The table of one lead whose cell is a quoted address. *)
Definition quoted_lead : DataFrame :=
  {| columns := ["id"; "pii.Email_Array"];
     rows := [ {| label := 0; cells := [PyInt 1; PyStr "'a@b.com'"] |} ] |}.

(** A table without the array column. *)
Definition no_array : DataFrame :=
  {| columns := ["id"; "email"];
     rows := [ {| label := 0; cells := [PyInt 1; PyStr "a@b.com"] |} ] |}.

(** A table whose array cells each hold one address. *)
Definition single_leads : DataFrame :=
  {| columns := ["id"; "pii.Email_Array"];
     rows := [ {| label := 0; cells := [PyInt 1; PyStr "[a@x.com]"] |};
               {| label := 1; cells := [PyInt 3; PyStr "[c@y.com]"] |} ] |}.

(** A table one of whose cells spells a set that holds a list. *)
Definition braced_leads : DataFrame :=
  {| columns := ["id"; "pii.Email_Array"];
     rows := [ {| label := 0; cells := [PyInt 1; PyStr "[a@x.com]"] |};
               {| label := 1; cells := [PyInt 2; PyStr "{[]}"] |} ] |}.

(* ================================================================== *)
(** * The words of the specification about unquoted tokens *)

(** The tokens of a cell's text, as the decoder reads them. *)
Definition tokens_of (s : string) : result (list token) :=
  let cs := lstrip (list_ascii_of_string s) in
  tokenize (S (List.length cs)) cs.

(** A token that no literal is made of: a name other than [None], [True]
    and [False], or an [@].  Inside a string literal neither is a token:
    the literal is one token. *)
Definition bare_token (t : token) : bool :=
  match t with
  | TName id => negb (constant_name id)
  | TAt => true
  | _ => false
  end.

Definition brace_token (t : token) : bool :=
  match t with
  | TLBrace => true
  | _ => false
  end.

(** The cell holds a bare name or an [@] outside every string literal,
    as a cell of unquoted addresses does, and no brace. *)
Definition unquoted (s : string) : bool :=
  match tokens_of s with
  | Ok ts => existsb bare_token ts && negb (existsb brace_token ts)
  | Raise _ => false
  end.

(** Tokens and trees weighed alike: [wn] for a name that is no constant,
    [wa] for an [@], [wb] for an opening brace; in a tree, for a [Name] or
    an [Attribute], a [MatMult] and a [Set] or a [Dict]. *)
Definition token_weight (wn wa wb : nat) (t : token) : nat :=
  match t with
  | TName id => if constant_name id then 0 else wn
  | TAt => wa
  | TLBrace => wb
  | _ => 0
  end.

Definition tokens_weight (wn wa wb : nat) (ts : list token) : nat :=
  list_sum (map (token_weight wn wa wb) ts).

Fixpoint expr_weight (wn wa wb : nat) (e : expr) : nat :=
  match e with
  | EConstant _ => 0
  | EName _ => wn
  | EList elts | ETuple elts => list_sum (map (expr_weight wn wa wb) elts)
  | ESet elts => wb + list_sum (map (expr_weight wn wa wb) elts)
  | EDict keys values =>
      wb + list_sum (map (expr_weight wn wa wb) keys)
         + list_sum (map (expr_weight wn wa wb) values)
  | EAttribute value _ => wn + expr_weight wn wa wb value
  | EUnaryOp _ operand => expr_weight wn wa wb operand
  | EBinOp l op r =>
      match op with
      | MatMult => wa
      | _ => 0
      end + expr_weight wn wa wb l + expr_weight wn wa wb r
  | EBoolOp _ values => list_sum (map (expr_weight wn wa wb) values)
  | ECompare l _ comparators =>
      expr_weight wn wa wb l + list_sum (map (expr_weight wn wa wb) comparators)
  | EIfExp test body orelse =>
      expr_weight wn wa wb test + expr_weight wn wa wb body
      + expr_weight wn wa wb orelse
  end.

(** The exceptions of the tokenizer and of the parser. *)
Definition syntax_class (e : exn) : Prop :=
  e = SyntaxError \/ e = OtherError "NotImplementedError".


(** What a parsing function answers on tokens of weight [before]: a tree
    and the tokens left, of the same weight together, or an exception of
    the parser. *)
Definition parsed_well {A : Type} (wn wa wb : nat) (w : A -> nat)
    (before : nat) (res : result (A * list token)) : Prop :=
  match res with
  | Ok (a, r) => before = w a + tokens_weight wn wa wb r
  | Raise e => syntax_class e
  end.

(** The weight of the elements of a display, and of the items of a dict
    display. *)
Definition exprs_weight (wn wa wb : nat) (es : list expr) : nat :=
  list_sum (map (expr_weight wn wa wb) es).

Definition items_weight (wn wa wb : nat) (kvs : list (expr * expr)) : nat :=
  exprs_weight wn wa wb (map fst kvs) + exprs_weight wn wa wb (map snd kvs).

(** The weight of the operands of a comparison after the first. *)
Definition pairs_weight (wn wa wb : nat) (pairs : list (cmpop * expr)) : nat :=
  exprs_weight wn wa wb (map snd pairs).

(** Whatever [r] raises is of the class [C]. *)
Definition raises_in {A : Type} (C : exn -> Prop) (r : result A) : Prop :=
  match r with
  | Ok _ => True
  | Raise e => C e
  end.

(** The exceptions of [_convert] on a tree: a [TypeError] needs a set or
    a dict in it. *)
Definition convert_failure (node : expr) (e : exn) : Prop :=
  e = ValueError \/ e = OtherError "NotImplementedError"
  \/ (e = TypeError /\ 0 < expr_weight 0 0 1 node).

(* ================================================================== *)
(** * More small tables *)

(** A table that already has a column named [parsed_emails]. *)
Definition reparsed : DataFrame :=
  {| columns := ["parsed_emails"; "pii.Email_Array"; "id"];
     rows := [ {| label := 0;
                  cells := [PyStr "old"; PyStr "[a@x.com, b@x.com]"; PyInt 1] |} ] |}.

(** A table that already has a column named [email]. *)
Definition with_old_email : DataFrame :=
  {| columns := ["email"; "pii.Email_Array"];
     rows := [ {| label := 0; cells := [PyStr "old@x.com"; PyStr "[a@x.com]"] |} ] |}.

(** A table whose array column holds numbers. *)
Definition numeric_leads : DataFrame :=
  {| columns := ["id"; "pii.Email_Array"];
     rows := [ {| label := 0; cells := [PyInt 1; PyStr "[a@x.com]"] |};
               {| label := 1; cells := [PyInt 2; PyInt 5] |} ] |}.

(** A table one of whose cells spells a number. *)
Definition spelled_number : DataFrame :=
  {| columns := ["id"; "pii.Email_Array"];
     rows := [ {| label := 0; cells := [PyInt 1; PyStr "[a@x.com]"] |};
               {| label := 1; cells := [PyInt 2; PyStr "5"] |} ] |}.

(** A table without a single address. *)
Definition no_emails : DataFrame :=
  {| columns := ["id"; "pii.Email_Array"];
     rows := [ {| label := 0; cells := [PyInt 1; PyFloat Fnan] |};
               {| label := 1; cells := [PyInt 2; PyStr "[]"] |} ] |}.

(** The page shown above the outcome of an upload. *)
Definition upload_page (table : DataFrame) : list st_call :=
  page_head ++ [st_subheader "Original Data (First 5 Rows)";
                st_dataframe {| columns := columns table;
                                rows := firstn 5 (rows table) |}].

(* ================================================================== *)
(** * The models at work *)

Example findall_two :
  findall email_re "not a list but has x@y.com and z@w.org embedded"
  = ["x@y.com"; "z@w.org"].
Proof. vm_compute. reflexivity. Qed.

Example findall_chain : findall email_re "a@b@c" = ["a@b"].
Proof. vm_compute. reflexivity. Qed.

Example findall_mixed : findall email_re "a.-@-.b;c@d" = ["a.-@-.b"; "c@d"].
Proof. vm_compute. reflexivity. Qed.

Example findall_none : findall email_re "a@@b @a a@" = [].
Proof. vm_compute. reflexivity. Qed.

Example lit_quoted : literal_eval_lit "'a@b.com'" = Ok (PyStr "a@b.com").
Proof. vm_compute. reflexivity. Qed.

Example lit_int : literal_eval_lit "5" = Ok (PyInt 5).
Proof. vm_compute. reflexivity. Qed.

Example lit_tuple : literal_eval_lit "(1, 2)" = Ok (PyTuple [PyInt 1; PyInt 2]).
Proof. vm_compute. reflexivity. Qed.

Example lit_bare_list : literal_eval_lit "[a@b.com, c@d.com]" = Raise ValueError.
Proof. vm_compute. reflexivity. Qed.

Example lit_quoted_list :
  literal_eval_lit "['a@b.com', 'c@d.com']"
  = Ok (PyList [PyStr "a@b.com"; PyStr "c@d.com"]).
Proof. vm_compute. reflexivity. Qed.

Example lit_open : literal_eval_lit "[malformed" = Raise SyntaxError.
Proof. vm_compute. reflexivity. Qed.

Example lit_words :
  literal_eval_lit "not a list but has x@y.com and z@w.org embedded"
  = Raise SyntaxError.
Proof. vm_compute. reflexivity. Qed.

Example lit_condition : literal_eval_lit "[1 if a else 2, not b]" = Raise ValueError.
Proof. vm_compute. reflexivity. Qed.

Example lit_dict :
  literal_eval_lit "{1: 'a', True: 'b', (): []}"
  = Ok (PyDict [(PyInt 1, PyStr "b"); (PyTuple [], PyList [])]).
Proof. vm_compute. reflexivity. Qed.

Example lit_set : literal_eval_lit "{'a', 'a'}" = Ok (PySet [PyStr "a"]).
Proof. vm_compute. reflexivity. Qed.

Example lit_unhashable : literal_eval_lit "{[]: 1}" = Raise TypeError.
Proof. vm_compute. reflexivity. Qed.

Example parse_words :
  parse_email_array (PyStr "not a list but has x@y.com and z@w.org embedded")
  = Ok (PyList [PyStr "x@y.com"; PyStr "z@w.org"]).
Proof. vm_compute. reflexivity. Qed.

Example parse_none : parse_email_array PyNone = Ok (PyList []).
Proof. reflexivity. Qed.

Example parse_empty : parse_email_array (PyStr "[]") = Ok (PyList []).
Proof. reflexivity. Qed.

Example parse_bare :
  parse_email_array (PyStr "[a@b.com, c@d.com]")
  = Ok (PyList [PyStr "a@b.com"; PyStr "c@d.com"]).
Proof. vm_compute. reflexivity. Qed.

Example parse_embedded :
  parse_email_array (PyStr "has x@y.com, z@w.org embedded")
  = Ok (PyList [PyStr "x@y.com"; PyStr "z@w.org"]).
Proof. vm_compute. reflexivity. Qed.

Example parse_malformed : parse_email_array (PyStr "[malformed") = Ok (PyList []).
Proof. vm_compute. reflexivity. Qed.

Example leads_processed :
  let (r, st) := process_csv 0 (store_of leads) in
  match r with
  | Ok (out, stats) =>
      stats = {| rows_before := 3; rows_after := 3; emails_found := 3 |}
      /\ columns (frames st out) = ["id"; "pii.Email_Array"; "email"]
      /\ rows (frames st out)
         = [ {| label := 0; cells := [PyInt 1; PyStr "[a@x.com, b@x.com]"; PyStr "a@x.com"] |};
             {| label := 0; cells := [PyInt 1; PyStr "[a@x.com, b@x.com]"; PyStr "b@x.com"] |};
             {| label := 2; cells := [PyInt 3; PyStr "[c@y.com]"; PyStr "c@y.com"] |} ]
      /\ frames st 0 = leads
  | Raise _ => False
  end.
Proof. vm_compute. repeat split; reflexivity. Qed.

(* ================================================================== *)
(** * The matcher on the e-mail pattern *)

Section SpanFacts.

Variable p : ascii -> bool.

Lemma span_app (s : list ascii) : fst (span p s) ++ snd (span p s) = s.
Proof.
  induction s as [|a s IH]; simpl; [reflexivity|].
  destruct (p a); simpl; [|reflexivity].
  destruct (span p s) as [u r]; simpl in *. now rewrite IH.
Qed.

Lemma span_all (s : list ascii) : forallb p (fst (span p s)) = true.
Proof.
  induction s as [|a s IH]; simpl; [reflexivity|].
  destruct (p a) eqn:Ha; simpl; [|reflexivity].
  destruct (span p s) as [u r]; simpl in *. now rewrite Ha.
Qed.

Lemma span_stop (s : list ascii) : starts_with p (snd (span p s)) = false.
Proof.
  induction s as [|a s IH]; simpl; [reflexivity|].
  destruct (p a) eqn:Ha; simpl; [|exact Ha].
  destruct (span p s) as [u r]; simpl in *. exact IH.
Qed.

Lemma span_eq (u r : list ascii) :
  forallb p u = true -> starts_with p r = false -> span p (u ++ r) = (u, r).
Proof.
  induction u as [|a u IH]; simpl; intros Hu Hr.
  - destruct r as [|b r]; simpl in *; [reflexivity|]. now rewrite Hr.
  - apply andb_true_iff in Hu as [Ha Hu]. rewrite Ha, (IH Hu Hr). reflexivity.
Qed.

End SpanFacts.

Lemma re_match_plus_cons (c : charset) (r : regex) (a : ascii) (s : list ascii) :
  re_match (Plus c :: r) (a :: s)
  = if in_set c a then
      match re_match (Plus c :: r) s with
      | Some n => Some (S n)
      | None => option_map S (re_match r s)
      end
    else None.
Proof. reflexivity. Qed.

(** A [+] followed by a character it cannot itself match takes its whole
    run: giving characters back never helps. *)
Lemma re_match_plus_one (c c' : charset) (k : regex) (s : list ascii) :
  (forall a, in_set c' a = true -> in_set c a = false) ->
  re_match (Plus c :: One c' :: k) s
  = match span (in_set c) s with
    | ((_ :: _) as u, b :: t) =>
        if in_set c' b
        then option_map (fun n => List.length u + S n) (re_match k t)
        else None
    | _ => None
    end.
Proof.
  intros Hdis. induction s as [|a s IH]; [reflexivity|].
  rewrite re_match_plus_cons. cbn [span].
  destruct (in_set c a) eqn:Ha; [|reflexivity].
  rewrite IH. clear IH.
  pose proof (span_app (in_set c) s) as Happ.
  pose proof (span_all (in_set c) s) as Hall.
  destruct (span (in_set c) s) as [u r]. cbn [fst snd] in *.
  destruct u as [|a' u].
  - cbn [app] in Happ. subst r.
    destruct s as [|b t]; [reflexivity|].
    cbn [re_match]. destruct (in_set c' b); [|reflexivity].
    destruct (re_match k t); cbn; reflexivity.
  - destruct r as [|b t].
    + subst s. cbn [re_match app].
      cbn [forallb] in Hall. apply andb_true_iff in Hall as [Ha' _].
      destruct (in_set c' a') eqn:Hc'; [|reflexivity].
      apply Hdis in Hc'. congruence.
    + destruct (in_set c' b) eqn:Hb.
      * destruct (re_match k t) as [n|]; cbn [option_map length].
        -- reflexivity.
        -- subst s. cbn [re_match app].
           cbn [forallb] in Hall. apply andb_true_iff in Hall as [Ha' _].
           destruct (in_set c' a') eqn:Hc'; [|reflexivity].
           apply Hdis in Hc'. congruence.
      * subst s. cbn [re_match app].
        cbn [forallb] in Hall. apply andb_true_iff in Hall as [Ha' _].
        destruct (in_set c' a') eqn:Hc'; [|reflexivity].
        apply Hdis in Hc'. congruence.
Qed.

(** A final [+] takes its whole run. *)
Lemma re_match_plus (c : charset) (s : list ascii) :
  re_match [Plus c] s
  = match fst (span (in_set c) s) with
    | [] => None
    | u => Some (List.length u)
    end.
Proof.
  induction s as [|a s IH]; [reflexivity|].
  rewrite re_match_plus_cons. cbn [span].
  destruct (in_set c a); [|reflexivity].
  rewrite IH. destruct (span (in_set c) s) as [u r]. cbn [fst].
  destruct u; reflexivity.
Qed.

Lemma at_not_email_char : email_char "@" = false.
Proof. reflexivity. Qed.

Lemma re_match_email (s : list ascii) :
  re_match email_re s
  = match span email_char s with
    | ((_ :: _) as l, b :: t) =>
        if Ascii.eqb b "@" then
          match fst (span email_char t) with
          | [] => None
          | d => Some (List.length l + S (List.length d))
          end
        else None
    | _ => None
    end.
Proof.
  unfold email_re, email_char. rewrite re_match_plus_one.
  - destruct (span (in_set email_chars) s) as [l r].
    destruct l as [|a l]; [reflexivity|]. destruct r as [|b t]; [reflexivity|].
    change (in_set [Chr "@"] b) with (Ascii.eqb b "@" || false).
    rewrite orb_false_r.
    destruct (Ascii.eqb b "@"); [|reflexivity].
    rewrite re_match_plus.
    destruct (fst (span (in_set email_chars) t)); reflexivity.
  - intros a Ha. cbn [in_set existsb in_item] in Ha. rewrite orb_false_r in Ha.
    apply Ascii.eqb_eq in Ha. subst a. reflexivity.
Qed.

Lemma re_match_email_some (s : list ascii) (n : nat) :
  re_match email_re s = Some n ->
  exists l d post, run_match s l d post /\ n = List.length l + S (List.length d).
Proof.
  rewrite re_match_email.
  pose proof (span_app email_char s) as Happ.
  pose proof (span_all email_char s) as Hall.
  destruct (span email_char s) as [l r]. cbn [fst snd] in *.
  destruct l as [|a l]; [discriminate|]. destruct r as [|b t]; [discriminate|].
  destruct (Ascii.eqb b "@") eqn:Hb; [|discriminate].
  apply Ascii.eqb_eq in Hb. subst b.
  pose proof (span_app email_char t) as Happ2.
  pose proof (span_all email_char t) as Hall2.
  pose proof (span_stop email_char t) as Hstop2.
  destruct (span email_char t) as [d post]. cbn [fst snd] in *.
  destruct d as [|a' d]; [discriminate|].
  intros [= <-]. exists (a :: l), (a' :: d), post. split; [|reflexivity].
  unfold run_match. subst t. rewrite Happ. repeat split; try assumption; discriminate.
Qed.

Lemma run_match_re_match (s l d post : list ascii) :
  run_match s l d post ->
  re_match email_re s = Some (List.length l + S (List.length d)).
Proof.
  intros (-> & Hl & Hd & Hal & Had & Hpost).
  rewrite re_match_email, span_eq by (assumption || reflexivity).
  destruct l as [|a l]; [congruence|].
  rewrite Ascii.eqb_refl, span_eq by assumption. cbn [fst].
  destruct d as [|a' d]; [congruence|]. reflexivity.
Qed.

Lemma re_match_email_start (s : list ascii) :
  starts_with email_char s = false -> re_match email_re s = None.
Proof.
  intros Hs. destruct (re_match email_re s) as [n|] eqn:Hm; [|reflexivity].
  apply re_match_email_some in Hm as (l & d & post & (-> & Hl & _ & Hal & _) & _).
  destruct l as [|a l]; [congruence|].
  cbn in Hs, Hal. rewrite Hs in Hal. discriminate.
Qed.

(** A position inside a run has no match when the start of the run has
    none. *)
Lemma re_match_email_inside (a : ascii) (s : list ascii) :
  email_char a = true -> re_match email_re (a :: s) = None ->
  re_match email_re s = None.
Proof.
  intros Ha Hnone. destruct (re_match email_re s) as [n|] eqn:Hm; [|reflexivity].
  apply re_match_email_some in Hm as (l & d & post & (-> & Hl & Hd & Hal & Had & Hp) & _).
  assert (Hrun : run_match (a :: l ++ "@"%char :: d ++ post) (a :: l) d post).
  { unfold run_match. cbn [forallb]. rewrite Ha, Hal.
    repeat split; try assumption; discriminate. }
  apply run_match_re_match in Hrun. congruence.
Qed.

Lemma re_match_email_length (s : list ascii) (n : nat) :
  re_match email_re s = Some n -> 3 <= n <= List.length s.
Proof.
  intros Hm. apply re_match_email_some in Hm as (l & d & post & (-> & Hl & Hd & _) & ->).
  rewrite length_app. cbn [List.length]. rewrite length_app.
  destruct l; [congruence|]. destruct d; [congruence|]. cbn [List.length]. lia.
Qed.

Lemma skipn_length_app {A : Type} (pre s : list A) :
  skipn (List.length pre) (pre ++ s) = s.
Proof. induction pre; simpl; auto. Qed.

Lemma run_match_rest (s l d post : list ascii) :
  run_match s l d post -> skipn (List.length l + S (List.length d)) s = post.
Proof.
  intros (-> & _).
  replace (l ++ "@"%char :: d ++ post) with ((l ++ "@"%char :: d) ++ post)
    by (rewrite <- app_assoc; reflexivity).
  replace (List.length l + S (List.length d)) with (List.length (l ++ "@"%char :: d))
    by (rewrite length_app; reflexivity).
  apply skipn_length_app.
Qed.

(** ** The scan *)

Lemma scan_inv_step_skip (pre : list ascii) (a : ascii) (s : list ascii) (k : nat) :
  scan_inv pre (S k) (a :: s) -> scan_inv (pre ++ [a]) k s.
Proof.
  unfold scan_inv. intros [Hle Hst]. cbn [List.length skipn] in *.
  destruct k as [|k].
  - right. apply re_match_email_start. exact Hst.
  - split; [lia | exact Hst].
Qed.

Lemma scan_inv_step_match (pre : list ascii) (a : ascii) (s : list ascii) (n : nat) :
  re_match email_re (a :: s) = Some n -> scan_inv (pre ++ [a]) (pred n) s.
Proof.
  intros Hm. pose proof (re_match_email_length _ _ Hm) as Hlen.
  apply re_match_email_some in Hm as (l & d & post & Hrun & ->).
  pose proof (run_match_rest _ _ _ _ Hrun) as Hrest.
  destruct Hrun as (_ & _ & _ & _ & _ & Hpost).
  cbn [List.length] in Hlen.
  destruct (List.length l + S (List.length d)) as [|k] eqn:Hk; [lia|].
  cbn [pred skipn] in *. unfold scan_inv.
  destruct k as [|k]; [lia|]. split; [lia|]. rewrite Hrest. exact Hpost.
Qed.

Lemma scan_inv_step_none (pre : list ascii) (a : ascii) (s : list ascii) :
  re_match email_re (a :: s) = None -> scan_inv (pre ++ [a]) 0 s.
Proof.
  intros Hnone. unfold scan_inv.
  destruct (email_char a) eqn:Ha.
  - right. eapply re_match_email_inside; eassumption.
  - left. right. exists a. split; [|exact Ha].
    rewrite length_app. cbn [List.length].
    replace (List.length pre + 1 - 1) with (List.length pre) by lia.
    rewrite <- app_assoc. rewrite nth_error_app2 by lia.
    rewrite Nat.sub_diag. reflexivity.
Qed.

Lemma length_snoc {A : Type} (pre : list A) (a : A) :
  List.length (pre ++ [a]) = S (List.length pre).
Proof. rewrite length_app. cbn. lia. Qed.

Lemma app_snoc {A : Type} (pre : list A) (a : A) (s : list A) :
  (pre ++ [a]) ++ s = pre ++ a :: s.
Proof. rewrite <- app_assoc. reflexivity. Qed.

(** Every reported match stands where the pattern matches and starts a
    run. *)
Lemma scan_sound (s pre : list ascii) (skip : nat) (m : nat * nat) :
  scan_inv pre skip s ->
  In m (scan email_re skip (List.length pre) s) ->
  List.length pre + skip <= fst m /\ match_at (pre ++ s) (fst m) (snd m).
Proof.
  revert pre skip. induction s as [|a s IH]; intros pre skip Hinv Hin; [destruct Hin|].
  cbn [scan] in Hin. destruct skip as [|k].
  - destruct (re_match email_re (a :: s)) as [n|] eqn:Hm.
    + destruct Hin as [<- | Hin].
      * cbn [fst snd]. split; [lia|]. unfold match_at.
        rewrite skipn_length_app. split; [exact Hm|].
        destruct Hinv as [H|H]; [exact H | congruence].
      * rewrite <- (length_snoc pre a) in Hin.
        apply IH in Hin; [|apply scan_inv_step_match; exact Hm].
        rewrite app_snoc, length_snoc in Hin. split; [lia | apply Hin].
    + rewrite <- (length_snoc pre a) in Hin.
      apply IH in Hin; [|apply scan_inv_step_none; exact Hm].
      rewrite app_snoc, length_snoc in Hin. split; [lia | apply Hin].
  - rewrite <- (length_snoc pre a) in Hin.
    apply IH in Hin; [|apply scan_inv_step_skip; exact Hinv].
    rewrite app_snoc, length_snoc in Hin. split; [lia | apply Hin].
Qed.

Lemma in_order_weaken (from from' : nat) (ms : list (nat * nat)) :
  from' <= from -> in_order from ms -> in_order from' ms.
Proof. destruct ms as [|m ms]; cbn; [trivial|]. intros ? (? & ? & ?). repeat split; [lia|assumption..]. Qed.

(** The reported matches come from left to right and do not overlap. *)
Lemma scan_in_order (s : list ascii) (skip pos : nat) :
  in_order (pos + skip) (scan email_re skip pos s).
Proof.
  revert skip pos. induction s as [|a s IH]; intros skip pos; [exact I|].
  cbn [scan]. destruct skip as [|k].
  - destruct (re_match email_re (a :: s)) as [n|] eqn:Hm.
    + pose proof (re_match_email_length _ _ Hm) as Hlen.
      cbn [in_order fst snd]. repeat split; [lia | lia |].
      eapply in_order_weaken; [|apply IH]. lia.
    + eapply in_order_weaken; [|apply IH]. lia.
  - eapply in_order_weaken; [|apply IH]. lia.
Qed.

(** A match the scan could report is reported, unless an earlier reported
    match runs over its start. *)
Lemma scan_complete (s pre : list ascii) (skip i n : nat) :
  match_at (pre ++ s) i n -> List.length pre + skip <= i ->
  In (i, n) (scan email_re skip (List.length pre) s)
  \/ exists m, In m (scan email_re skip (List.length pre) s)
               /\ fst m < i < fst m + snd m.
Proof.
  revert pre skip. induction s as [|a s IH]; intros pre skip Hocc Hle.
  - exfalso. destruct Hocc as [Hm _]. rewrite app_nil_r in Hm.
    rewrite skipn_all2 in Hm by lia. discriminate.
  - cbn [scan]. destruct skip as [|k].
    + destruct (Nat.eq_dec i (List.length pre)) as [->|Hne].
      * destruct Hocc as [Hm _]. rewrite skipn_length_app in Hm. rewrite Hm.
        left. left. reflexivity.
      * destruct (re_match email_re (a :: s)) as [n0|] eqn:Hm.
        -- destruct (Nat.lt_ge_cases i (List.length pre + n0)) as [Hlt|Hge].
           ++ right. exists (List.length pre, n0). cbn [fst snd].
              split; [left; reflexivity | lia].
           ++ rewrite <- app_snoc in Hocc.
              pose proof (re_match_email_length _ _ Hm) as Hlen.
              apply (IH _ (pred n0)) in Hocc; [|rewrite length_snoc; lia].
              rewrite length_snoc in Hocc.
              destruct Hocc as [Hin | (m & Hin & Hov)].
              ** left. right. exact Hin.
              ** right. exists m. split; [right; exact Hin | exact Hov].
        -- rewrite <- app_snoc in Hocc.
           apply (IH _ 0) in Hocc; [|rewrite length_snoc; lia].
           rewrite length_snoc in Hocc. exact Hocc.
    + rewrite <- app_snoc in Hocc.
      apply (IH _ k) in Hocc; [|rewrite length_snoc; lia].
      rewrite length_snoc in Hocc. exact Hocc.
Qed.

(** ** Reported matches and maximal matching substrings *)

Lemma slice_length {A : Type} (s : list A) (i n : nat) :
  i + n <= List.length s -> List.length (slice i n s) = n.
Proof.
  intros H. unfold slice. rewrite firstn_length_le; [reflexivity|].
  rewrite length_skipn. lia.
Qed.

Lemma slice_nth {A : Type} (s : list A) (i n j : nat) :
  j < n -> nth_error (slice i n s) j = nth_error s (i + j).
Proof.
  intros H. unfold slice. rewrite nth_error_firstn.
  destruct (Nat.ltb_spec j n); [|lia]. apply nth_error_skipn.
Qed.

Lemma skipn_slice {A : Type} (s : list A) (i n : nat) :
  skipn i s = slice i n s ++ skipn (i + n) s.
Proof.
  unfold slice. rewrite <- (firstn_skipn n (skipn i s)) at 1.
  rewrite skipn_skipn. do 2 f_equal. lia.
Qed.

Lemma firstn_snoc {A : Type} (l : list A) (n : nat) (c : A) :
  nth_error l n = Some c -> firstn (S n) l = firstn n l ++ [c].
Proof.
  revert l. induction n as [|n IH]; intros [|a l] H; try discriminate.
  - injection H as ->. reflexivity.
  - cbn [nth_error] in H. cbn [firstn app]. f_equal. apply (IH l H).
Qed.

Lemma skipn_cons_nth {A : Type} (l : list A) (i : nat) (c : A) :
  nth_error l i = Some c -> skipn i l = c :: skipn (S i) l.
Proof.
  revert l. induction i as [|i IH]; intros [|a l] H; try discriminate.
  - injection H as ->. reflexivity.
  - cbn [nth_error] in H. exact (IH l H).
Qed.

Lemma slice_snoc {A : Type} (s : list A) (i n : nat) (c : A) :
  nth_error s (i + n) = Some c -> slice i (S n) s = slice i n s ++ [c].
Proof.
  intros H. unfold slice. apply firstn_snoc. rewrite nth_error_skipn. exact H.
Qed.

Lemma slice_cons {A : Type} (s : list A) (i n : nat) (c : A) :
  nth_error s i = Some c -> slice i (S n) s = c :: slice (S i) n s.
Proof.
  intros H. unfold slice. rewrite (skipn_cons_nth s i c H). reflexivity.
Qed.

Lemma firstn_length_app {A : Type} (u post : list A) :
  firstn (List.length u) (u ++ post) = u.
Proof. induction u as [|a u IH]; cbn; [destruct post; reflexivity | now rewrite IH]. Qed.

(** In a matching text every character but the [@] is an e-mail
    character. *)
Lemma email_like_nth (l d : list ascii) (j : nat) (c : ascii) :
  forallb email_char l = true -> forallb email_char d = true ->
  nth_error (l ++ "@"%char :: d) j = Some c ->
  (j = List.length l /\ c = "@"%char)
  \/ (j <> List.length l /\ email_char c = true).
Proof.
  intros Hl Hd H.
  rewrite forallb_forall in Hl, Hd.
  destruct (Nat.lt_trichotomy j (List.length l)) as [Hlt | [-> | Hgt]].
  - right. split; [lia|]. rewrite nth_error_app1 in H by exact Hlt.
    apply Hl. eapply nth_error_In. exact H.
  - left. rewrite nth_error_app2, Nat.sub_diag in H by lia.
    injection H as <-. split; reflexivity.
  - right. split; [lia|]. rewrite nth_error_app2 in H by lia.
    destruct (j - List.length l) as [|k] eqn:Hk; [lia|]. cbn [nth_error] in H.
    apply Hd. eapply nth_error_In. exact H.
Qed.

Lemma match_at_maximal (s : list ascii) (i n : nat) :
  match_at s i n -> maximal_at s i n.
Proof.
  intros [Hm Hleft].
  assert (Hi : i <= List.length s).
  { destruct (Nat.le_gt_cases i (List.length s)) as [H|H]; [exact H|].
    rewrite skipn_all2 in Hm by lia. discriminate. }
  pose proof (re_match_email_length _ _ Hm) as Hlen. rewrite length_skipn in Hlen.
  apply re_match_email_some in Hm as (l & d & post & Hrun & Hn).
  pose proof (run_match_rest _ _ _ _ Hrun) as Hrest.
  rewrite <- Hn, skipn_skipn in Hrest.
  destruct Hrun as (Hs & Hl & Hd & Hal & Had & Hpost).
  assert (Hslice : slice i n s = l ++ "@"%char :: d).
  { unfold slice. rewrite Hs.
    replace (l ++ "@"%char :: d ++ post) with ((l ++ "@"%char :: d) ++ post)
      by (rewrite <- app_assoc; reflexivity).
    replace n with (List.length (l ++ "@"%char :: d))
      by (rewrite length_app; cbn [List.length]; lia).
    apply firstn_length_app. }
  assert (Hll : 1 <= List.length l) by (destruct l; [congruence | cbn; lia]).
  split.
  - split; [lia|]. exists l, d. repeat split; assumption.
  - intros i' n' [Hle' (l' & d' & Hs' & Hl' & Hd' & Hal' & Had')] Hii Hnn.
    assert (Hat : nth_error s (i + List.length l) = Some "@"%char).
    { rewrite <- (slice_nth s i n) by lia. rewrite Hslice.
      rewrite nth_error_app2, Nat.sub_diag by lia. reflexivity. }
    assert (Hl'len : List.length l' = i + List.length l - i').
    { assert (H : nth_error (slice i' n' s) (i + List.length l - i') = Some "@"%char).
      { rewrite slice_nth by lia. rewrite <- Hat. f_equal. lia. }
      rewrite Hs' in H. apply email_like_nth in H; [|assumption..].
      destruct H as [[H _] | [_ H]]; [lia|].
      rewrite at_not_email_char in H. discriminate. }
    assert (Hi' : i' = i).
    { destruct (Nat.eq_dec i' i) as [H|H]; [exact H|]. exfalso.
      destruct Hleft as [-> | (c & Hc & Hcc)]; [lia|].
      assert (H' : nth_error (slice i' n' s) (i - 1 - i') = Some c).
      { rewrite slice_nth by lia. rewrite <- Hc. f_equal. lia. }
      rewrite Hs' in H'. apply email_like_nth in H'; [|assumption..].
      destruct H' as [[H' _] | [_ H']]; [lia | congruence]. }
    subst i'. split; [reflexivity|].
    destruct (Nat.eq_dec n' n) as [H|H]; [exact H|]. exfalso.
    assert (Hpos : nth_error s (i + n) <> None) by (apply nth_error_Some; lia).
    destruct (nth_error s (i + n)) as [c|] eqn:Hc; [|congruence].
    assert (Hcc : email_char c = false).
    { assert (Hp : nth_error post 0 = Some c).
      { rewrite <- Hrest, nth_error_skipn. rewrite <- Hc. f_equal. lia. }
      destruct post as [|c' post']; [discriminate|]. injection Hp as ->. exact Hpost. }
    assert (H' : nth_error (slice i n' s) n = Some c).
    { rewrite slice_nth by lia. exact Hc. }
    rewrite Hs' in H'. apply email_like_nth in H'; [|assumption..].
    destruct H' as [[H' _] | [_ H']]; [lia | congruence].
Qed.

Lemma maximal_match_at (s : list ascii) (i n : nat) :
  maximal_at s i n -> match_at s i n.
Proof.
  intros [[Hle (l & d & Hs & Hl & Hd & Hal & Had)] Hmax].
  assert (Hn : n = List.length l + S (List.length d)).
  { rewrite <- (slice_length s i n Hle), Hs, length_app. reflexivity. }
  split.
  - rewrite (skipn_slice s i n), Hs.
    destruct (skipn (i + n) s) as [|c post] eqn:Hpost.
    + rewrite Hn. replace ((l ++ "@"%char :: d) ++ []) with (l ++ "@"%char :: d ++ [])
        by (rewrite <- app_assoc; reflexivity).
      apply (run_match_re_match _ l d []). unfold run_match.
      repeat split; assumption.
    + assert (Hc : nth_error s (i + n) = Some c).
      { rewrite <- (Nat.add_0_r (i + n)), <- nth_error_skipn, Hpost. reflexivity. }
      destruct (email_char c) eqn:Hcc.
      * exfalso.
        assert (Hocc : occurs_at s i (S n)).
        { split.
          - assert (i + n < List.length s) by (apply nth_error_Some; congruence). lia.
          - exists l, (d ++ [c]). rewrite (slice_snoc s i n c Hc), Hs.
            rewrite <- app_assoc. repeat split; try assumption.
            + destruct d; discriminate.
            + rewrite forallb_app, Had. cbn [forallb]. now rewrite Hcc. }
        destruct (Hmax i (S n) Hocc); lia.
      * rewrite Hn. replace ((l ++ "@"%char :: d) ++ c :: post)
          with (l ++ "@"%char :: d ++ c :: post)
          by (rewrite <- app_assoc; reflexivity).
        apply (run_match_re_match _ l d (c :: post)). unfold run_match.
        repeat split; assumption.
  - destruct i as [|i0]; [left; reflexivity|]. right.
    assert (Hpos : nth_error s i0 <> None) by (apply nth_error_Some; lia).
    destruct (nth_error s i0) as [c|] eqn:Hc; [|congruence].
    exists c. replace (S i0 - 1) with i0 by lia. split; [exact Hc|].
    destruct (email_char c) eqn:Hcc; [|reflexivity]. exfalso.
    assert (Hocc : occurs_at s i0 (S n)).
    { split; [lia|]. exists (c :: l), d. rewrite (slice_cons s i0 n c Hc), Hs.
      repeat split; try assumption; [discriminate|]. cbn [forallb]. now rewrite Hcc. }
    destruct (Hmax i0 (S n) Hocc); lia.
Qed.

(** What [findall] returns on the e-mail pattern: from left to right and
    without overlap, maximal matching substrings; a maximal matching
    substring is left out only when a returned match runs over its
    start. *)
Lemma scan_email (s : list ascii) :
  let ms := scan email_re 0 0 s in
  in_order 0 ms
  /\ (forall m, In m ms -> maximal_at s (fst m) (snd m))
  /\ (forall i n, maximal_at s i n ->
        In (i, n) ms \/ exists m, In m ms /\ fst m < i < fst m + snd m).
Proof.
  cbn zeta. split; [|split].
  - apply (scan_in_order s 0 0).
  - intros m Hin. apply match_at_maximal.
    apply (scan_sound s [] 0 m); [left; left; reflexivity | exact Hin].
  - intros i n Hmax. apply (scan_complete s [] 0 i n); [|cbn; lia].
    apply maximal_match_at. exact Hmax.
Qed.

(* ================================================================== *)
(** * Tables and the store *)

Lemma update_same (fs : nat -> DataFrame) (r : nat) (f : DataFrame) :
  update fs r f r = f.
Proof. unfold update. now rewrite Nat.eqb_refl. Qed.

Lemma update_other (fs : nat -> DataFrame) (r r' : nat) (f : DataFrame) :
  r' <> r -> update fs r f r' = fs r'.
Proof. unfold update. intros H. apply Nat.eqb_neq in H. now rewrite H. Qed.

Ltac store_simpl :=
  repeat first
    [ rewrite update_same
    | rewrite update_other by lia ].

Lemma mapM_cons {A B : Type} (f : A -> result B) (a : A) (l : list A) :
  mapM f (a :: l) = (b <- f a ;; bs <- mapM f l ;; Ok (b :: bs)).
Proof. reflexivity. Qed.

Lemma mapM_length {A B : Type} (f : A -> result B) (l : list A) (l' : list B) :
  mapM f l = Ok l' -> List.length l' = List.length l.
Proof.
  revert l'. induction l as [|a l IH]; intros l' H; cbn in H.
  - injection H as <-. reflexivity.
  - destruct (f a) as [b|e]; [|discriminate]. cbn in H.
    destruct (mapM f l) as [bs|e]; [|discriminate]. cbn in H.
    injection H as <-. cbn. f_equal. apply IH. reflexivity.
Qed.

Lemma mapM_Forall2 {A B : Type} (f : A -> result B) (l : list A) (l' : list B) :
  mapM f l = Ok l' -> Forall2 (fun a b => f a = Ok b) l l'.
Proof.
  revert l'. induction l as [|a l IH]; intros l' H; cbn in H.
  - injection H as <-. constructor.
  - destruct (f a) as [b|e] eqn:Hb; [|discriminate]. cbn in H.
    destruct (mapM f l) as [bs|e]; [|discriminate]. cbn in H.
    injection H as <-. constructor; [exact Hb | apply IH; reflexivity].
Qed.

(** What a successful run of [process_csv] went through. *)
Lemma process_csv_ok `{Decoder} (df out : nat) (stats : Stats) (st st' : store) :
  process_csv df st = (Ok (out, stats), st') ->
  exists vals parsed t1 pe lens t3,
    email_array (frames st df) = Ok vals
    /\ mapM parse_email_array vals = Ok parsed
    /\ set_column (frames st df) "parsed_emails" parsed = Ok t1
    /\ column_values t1 "parsed_emails" = Ok pe
    /\ mapM py_len pe = Ok lens
    /\ explode (select_rows t1 (map (fun n => (0 <? n)%nat) lens)) "parsed_emails"
       = Ok t3
    /\ frames st' out = rename t3 "parsed_emails" "email"
    /\ stats = {| rows_before := List.length (rows t1);
                  rows_after := List.length (rows t3);
                  emails_found := list_sum lens |}.
Proof.
  unfold process_csv, copy, getitem, setitem, apply, len, getitem_mask,
    df_explode, df_rename, bind_py, load, save, new_frame, lift, ret, email_array.
  cbn [frames next]. store_simpl.
  destruct (column_values (frames st df) "pii.Email_Array") as [vals|e] eqn:H1;
    [|discriminate].
  destruct (mapM parse_email_array vals) as [parsed|e] eqn:H2; [|discriminate].
  destruct (set_column (frames st df) "parsed_emails" parsed) as [t1|e] eqn:H3;
    [|discriminate].
  cbn [frames next]. store_simpl.
  destruct (column_values t1 "parsed_emails") as [pe|e] eqn:H4; [|discriminate].
  destruct (mapM py_len pe) as [lens|e] eqn:H5; [|discriminate].
  cbn [frames next]. store_simpl.
  destruct (explode _ "parsed_emails") as [t3|e] eqn:Hex; [|discriminate].
  cbn [frames next]. store_simpl.
  intros [= <- <- <-]. cbn [frames]. store_simpl.
  exists vals, parsed, t1, pe, lens, t3. repeat split; assumption || reflexivity.
Qed.

(** ** Columns and cells *)

Lemma index_of_lt (name : string) (cols : list string) (k : nat) :
  index_of name cols = Some k -> k < List.length cols.
Proof.
  revert k. induction cols as [|c cols IH]; intros k H; cbn in H; [discriminate|].
  destruct (String.eqb c name).
  - injection H as <-. cbn. lia.
  - destruct (index_of name cols) as [k'|]; [|discriminate].
    injection H as <-. cbn. specialize (IH k' eq_refl). lia.
Qed.

Lemma index_of_new (name : string) (cols : list string) :
  index_of name cols = None ->
  index_of name (cols ++ [name]) = Some (List.length cols).
Proof.
  induction cols as [|c cols IH]; cbn; intros H.
  - now rewrite String.eqb_refl.
  - destruct (String.eqb c name); [discriminate|].
    destruct (index_of name cols); [discriminate|]. now rewrite IH.
Qed.

Lemma index_of_none (name : string) (cols : list string) :
  ~ In name cols -> index_of name cols = None.
Proof.
  induction cols as [|c cols IH]; cbn; intros H; [reflexivity|].
  destruct (String.eqb_spec c name) as [->|_]; [tauto|].
  rewrite IH by tauto. reflexivity.
Qed.

Lemma nth_set_nth {A : Type} (k : nat) (v d : A) (l : list A) :
  k < List.length l -> nth k (set_nth k v l) d = v.
Proof.
  revert k. induction l as [|a l IH]; intros [|k] H; cbn in *; try lia; [reflexivity|].
  apply IH. lia.
Qed.

Lemma set_nth_twice {A : Type} (k : nat) (v w : A) (l : list A) :
  set_nth k v (set_nth k w l) = set_nth k v l.
Proof.
  revert k. induction l as [|a l IH]; intros [|k]; cbn; try reflexivity.
  now rewrite IH.
Qed.

Lemma nth_last {A : Type} (v d : A) (l : list A) : nth (List.length l) (l ++ [v]) d = v.
Proof. induction l; cbn; auto. Qed.

Lemma set_nth_last {A : Type} (v w : A) (l : list A) :
  set_nth (List.length l) v (l ++ [w]) = l ++ [v].
Proof. induction l as [|a l IH]; cbn; [reflexivity | now rewrite IH]. Qed.

(** In a row of the right width the assigned column holds the assigned
    value, and assigning it again replaces that value. *)
Lemma assigned_cell (cols : list string) (name : string) (cs : list pyval) :
  List.length cs = List.length cols ->
  exists k, index_of name (columns_with cols name) = Some k
    /\ (forall p d, nth k (assign cols name p cs) d = p)
    /\ (forall p v, set_nth k v (assign cols name p cs) = assign cols name v cs).
Proof.
  intros Hw. unfold columns_with, assign.
  destruct (index_of name cols) as [k|] eqn:Hk.
  - exists k. split; [exact Hk|]. split; intros.
    + apply nth_set_nth. apply index_of_lt in Hk. lia.
    + apply set_nth_twice.
  - exists (List.length cols). split; [apply index_of_new; exact Hk|].
    rewrite <- Hw. split; intros; [apply nth_last | apply set_nth_last].
Qed.

Lemma set_column_ok (t t1 : DataFrame) (name : string) (values : list pyval) :
  set_column t name values = Ok t1 ->
  List.length values = List.length (rows t)
  /\ columns t1 = columns_with (columns t) name
  /\ rows t1 = map (assign_row (columns t) name) (combine (rows t) values).
Proof.
  unfold set_column.
  destruct (Nat.eqb_spec (List.length values) (List.length (rows t))) as [Hl|Hl];
    cbn [negb]; [|discriminate].
  intros [= <-]. cbn [columns rows]. repeat split. exact Hl.
Qed.

Lemma column_values_ok (t : DataFrame) (name : string) (k : nat) :
  index_of name (columns t) = Some k ->
  column_values t name = Ok (map (cell k) (rows t)).
Proof. unfold column_values. now intros ->. Qed.

Lemma column_values_length (t : DataFrame) (name : string) (vals : list pyval) :
  column_values t name = Ok vals -> List.length vals = List.length (rows t).
Proof.
  unfold column_values. destruct (index_of name (columns t)); [|discriminate].
  intros [= <-]. apply length_map.
Qed.

(** Reading back the column that was just assigned. *)
Lemma assigned_column (cols : list string) (name : string) (k : nat)
    (rs : list row) (values : list pyval) :
  Forall (fun r => List.length (cells r) = List.length cols) rs ->
  List.length values = List.length rs ->
  index_of name (columns_with cols name) = Some k ->
  map (cell k) (map (assign_row cols name) (combine rs values)) = values.
Proof.
  intros Hwf. revert values.
  induction Hwf as [|r rs Hr Hrs IH]; intros [|v values] Hlen Hk; try discriminate;
    [reflexivity|].
  cbn [combine map]. f_equal.
  - unfold cell, assign_row. cbn [cells fst snd].
    destruct (assigned_cell cols name (cells r) Hr) as (k' & Hk' & Hget & _).
    rewrite Hk in Hk'. injection Hk' as <-. apply Hget.
  - apply IH; [|exact Hk]. cbn in Hlen. lia.
Qed.

(** The rows the mask keeps. *)
Lemma selected_rows (g : row * pyval -> row) (rs : list row)
    (parsed : list pyval) (lens : list nat) :
  List.length parsed = List.length rs ->
  mapM py_len parsed = Ok lens ->
  map fst (filter snd (combine (map g (combine rs parsed))
                               (map (fun n => (0 <? n)%nat) lens)))
  = map g (filter (fun rp => kept (snd rp)) (combine rs parsed)).
Proof.
  revert parsed lens. induction rs as [|r rs IH]; intros [|p parsed] lens Hlen Hm;
    try discriminate; [reflexivity|].
  cbn in Hm. destruct (py_len p) as [n|e] eqn:Hp; [|discriminate]. cbn in Hm.
  destruct (mapM py_len parsed) as [ns|e] eqn:Hps; [|discriminate]. cbn in Hm.
  injection Hm as <-. cbn [combine map filter snd fst]. unfold kept at 1. rewrite Hp.
  cbn in Hlen. destruct (0 <? n)%nat; cbn [map]; rewrite (IH parsed ns); auto.
Qed.

Lemma explode_ok (t t3 : DataFrame) (column : string) :
  explode t column = Ok t3 ->
  exists k, index_of column (columns t) = Some k
    /\ columns t3 = columns t
    /\ rows t3 = flat_map (explode_row k) (rows t).
Proof.
  unfold explode. destruct (unique (columns t)); cbn [negb]; [|discriminate].
  destruct (index_of column (columns t)) as [k|]; [|discriminate].
  intros [= <-]. exists k. repeat split.
Qed.

Lemma exploded_rows (cols : list string) (k : nat) (rps : list (row * pyval)) :
  Forall (fun rp => List.length (cells (fst rp)) = List.length cols) rps ->
  index_of "parsed_emails" (columns_with cols "parsed_emails") = Some k ->
  flat_map (explode_row k) (map (assign_row cols "parsed_emails") rps)
  = flat_map (fan_out cols) rps.
Proof.
  intros Hwf Hk. induction Hwf as [|[r p] rps Hr Hrps IH]; [reflexivity|].
  cbn [map flat_map]. rewrite IH. f_equal.
  unfold explode_row, fan_out, cell, assign_row. cbn [fst snd cells label] in *.
  destruct (assigned_cell cols "parsed_emails" (cells r) Hr) as (k' & Hk' & Hget & Hset).
  rewrite Hk in Hk'. injection Hk' as <-. rewrite Hget.
  apply map_ext. intros v. now rewrite Hset.
Qed.

Lemma Forall_combine_fst {A B : Type} (P : A -> Prop) (l : list A) (l' : list B) :
  Forall P l -> Forall (fun x => P (fst x)) (combine l l').
Proof.
  intros H. revert l'. induction H as [|a l Ha Hl IH]; intros [|b l']; cbn;
    constructor; auto.
Qed.

Lemma Forall_filter {A : Type} (P : A -> Prop) (f : A -> bool) (l : list A) :
  Forall P l -> Forall P (filter f l).
Proof.
  induction 1 as [|a l Ha Hl IH]; cbn; [constructor|].
  destruct (f a); [constructor|]; assumption.
Qed.

(** The table and the counts of a successful run, in terms of the input
    table and of the parsed cells. *)
Lemma process_csv_result `{Decoder} (df out : nat) (stats : Stats) (st st' : store) :
  well_formed (frames st df) ->
  process_csv df st = (Ok (out, stats), st') ->
  let t := frames st df in
  exists vals parsed lens,
    email_array t = Ok vals
    /\ mapM parse_email_array vals = Ok parsed
    /\ mapM py_len parsed = Ok lens
    /\ List.length parsed = List.length (rows t)
    /\ columns (frames st' out)
       = map (fun c => if String.eqb c "parsed_emails" then "email" else c)
             (columns_with (columns t) "parsed_emails")
    /\ rows (frames st' out)
       = flat_map (fan_out (columns t))
           (filter (fun rp => kept (snd rp)) (combine (rows t) parsed))
    /\ rows_before stats = List.length (rows t)
    /\ rows_after stats = List.length (rows (frames st' out))
    /\ emails_found stats = list_sum lens.
Proof.
  intros Hwf Hrun. cbn zeta.
  apply process_csv_ok in Hrun
    as (vals & parsed & t1 & pe & lens & t3 & Hv & Hp & Hset & Hpe & Hl & Hex & Hout & ->).
  apply set_column_ok in Hset as (Hlen & Hc1 & Hr1).
  apply explode_ok in Hex as (k & Hk & Hc3 & Hr3).
  cbn [select_rows columns rows] in Hk, Hc3, Hr3. rewrite Hc1 in Hk.
  assert (Hpe' : pe = parsed).
  { rewrite (column_values_ok t1 _ k) in Hpe by (rewrite Hc1; exact Hk).
    injection Hpe as <-. rewrite Hr1. apply assigned_column; assumption. }
  subst pe.
  exists vals, parsed, lens. rewrite Hout. cbn [rename columns rows rows_before
    rows_after emails_found].
  repeat split; try assumption.
  - rewrite Hc3, Hc1. reflexivity.
  - rewrite Hr3, Hr1, (selected_rows _ _ _ lens Hlen Hl).
    apply exploded_rows; [|exact Hk].
    apply Forall_filter.
    apply (Forall_combine_fst
             (fun r => List.length (cells r) = List.length (columns (frames st df)))).
    exact Hwf.
  - rewrite Hr1, length_map, length_combine. lia.
Qed.
(* ================================================================== *)
(** * The decoder on unquoted tokens *)

Ltac syntax_error :=
  first [ left; reflexivity | right; reflexivity ].

Lemma raises_in_bind {A B : Type} (C : exn -> Prop)
    (m : result A) (k : A -> result B) :
  raises_in C m -> (forall a, raises_in C (k a)) -> raises_in C (bind m k).
Proof. destruct m as [a|e]; cbn; auto. Qed.

Lemma string_body_class (q : ascii) (s : list ascii) :
  raises_in syntax_class (string_body q s).
Proof.
  induction s as [|a s IH]; cbn [string_body]; [syntax_error|].
  destruct (Ascii.eqb a q); [exact I|].
  destruct (_ || _); [syntax_error|].
  apply raises_in_bind; [exact IH|]. intros [b r]. exact I.
Qed.

Lemma tokenize_class (fuel : nat) (s : list ascii) :
  raises_in syntax_class (tokenize fuel s).
Proof.
  revert s. induction fuel as [|fuel IH]; intros s; [syntax_error|].
  cbn [tokenize].
  repeat
    match goal with
    | |- raises_in _ (bind (tokenize fuel _) _) =>
        apply raises_in_bind; [apply IH | intros ?]
    | |- raises_in _ (bind (string_body _ _) _) =>
        apply raises_in_bind; [apply string_body_class | intros [? ?]]
    | |- raises_in _ (tokenize fuel _) => apply IH
    | |- raises_in _ (Ok _) => exact I
    | |- raises_in _ (Raise _) => syntax_error
    | |- raises_in _ unmodelled => syntax_error
    | |- raises_in _ (if ?b then _ else _) => destruct b
    | |- raises_in _ (match ?x with _ => _ end) => destruct x
    | |- raises_in _ (let (_, _) := ?x in _) => destruct x
    end.
Qed.

Section Weights.

Variables wn wa wb : nat.

Abbreviation tw := (tokens_weight wn wa wb).
Abbreviation ew := (expr_weight wn wa wb).
Abbreviation ews := (exprs_weight wn wa wb).
Abbreviation well := (parsed_well wn wa wb).

Lemma tokens_weight_cons (t : token) (ts : list token) :
  tw (t :: ts) = token_weight wn wa wb t + tw ts.
Proof. reflexivity. Qed.

Lemma exprs_weight_cons (e : expr) (es : list expr) :
  ews (e :: es) = ew e + ews es.
Proof. reflexivity. Qed.

Lemma parsed_well_bind {A B : Type} (w : A -> nat) (w' : B -> nat) (n n' : nat)
    (m : result (A * list token)) (f : A * list token -> result (B * list token)) :
  well w n m ->
  (forall a r, n = w a + tw r -> well w' n' (f (a, r))) ->
  well w' n' (bind m f).
Proof. destruct m as [[a r]|x]; cbn; auto. Qed.

Lemma name_or_constant_weight (id : string) :
  ew (name_or_constant id) = token_weight wn wa wb (TName id).
Proof.
  unfold name_or_constant. cbn [token_weight]. unfold constant_name.
  destruct (String.eqb id "None"); [reflexivity|].
  destruct (String.eqb id "True"); [reflexivity|].
  destruct (String.eqb id "False"); reflexivity.
Qed.

Lemma string_run_weight (acc : string) (ts : list token) :
  tw (snd (string_run acc ts)) = tw ts.
Proof.
  revert acc. induction ts as [|t ts IH]; intros acc; [reflexivity|].
  destruct t; try reflexivity. cbn [string_run]. rewrite IH. reflexivity.
Qed.

Lemma closes_weight (close t : token) :
  closes close t = true -> token_weight wn wa wb t = 0.
Proof. destruct close, t; cbn; (discriminate || reflexivity). Qed.

Ltac weigh :=
  cbn [parsed_well expr_weight map list_sum];
  fold (exprs_weight wn wa wb);
  repeat rewrite tokens_weight_cons in *;
  repeat rewrite exprs_weight_cons in *;
  cbn [token_weight] in *;
  try lia.

Lemma p_trailers_weight (fuel : nat) (e : expr) (ts : list token) :
  well ew (ew e + tw ts) (p_trailers fuel e ts).
Proof.
  revert e ts. induction fuel as [|fuel IH]; intros e ts; [syntax_error|].
  cbn [p_trailers].
  destruct ts as [|t ts]; [weigh|].
  destruct t; try solve [weigh | syntax_error].
  destruct ts as [|t ts]; [syntax_error|].
  destruct t; try syntax_error.
  destruct (constant_name id) eqn:Hid; [syntax_error|].
  specialize (IH (EAttribute e id) ts). cbn [expr_weight] in IH.
  rewrite !tokens_weight_cons. cbn [token_weight]. rewrite Hid.
  replace (ew e + (0 + (wn + tw ts))) with (wn + ew e + tw ts) by lia.
  exact IH.
Qed.

Ltac weigh_goal :=
  repeat match goal with
         | H : closes _ _ = true |- _ => apply closes_weight in H
         | H : string_run ?acc ?ts = _ |- _ =>
             let Hw := fresh "Hw" in
             pose proof (string_run_weight acc ts) as Hw;
             rewrite H in Hw; cbn [snd] in Hw; clear H
         end;
  unfold items_weight, pairs_weight in *;
  cbn [parsed_well expr_weight];
  repeat match goal with
         | |- context [list_sum (map (expr_weight wn wa wb) ?x)] =>
             change (list_sum (map (expr_weight wn wa wb) x))
               with (exprs_weight wn wa wb x)
         end;
  cbn [map fst snd] in *;
  repeat rewrite name_or_constant_weight;
  repeat rewrite tokens_weight_cons in *;
  repeat rewrite exprs_weight_cons in *;
  cbn [token_weight] in *;
  change (ews []) with 0 in *;
  change (tw []) with 0 in *;
  lia.

Lemma parser_weight (fuel : nat) :
  (forall ts, well ew (tw ts) (p_expr fuel ts))
  /\ (forall ts, well ew (tw ts) (p_or fuel ts))
  /\ (forall ts, well ews (tw ts) (p_or_rest fuel ts))
  /\ (forall ts, well ew (tw ts) (p_and fuel ts))
  /\ (forall ts, well ews (tw ts) (p_and_rest fuel ts))
  /\ (forall ts, well ew (tw ts) (p_not fuel ts))
  /\ (forall ts, well ew (tw ts) (p_cmp fuel ts))
  /\ (forall ts, well (pairs_weight wn wa wb) (tw ts) (p_cmp_rest fuel ts))
  /\ (forall ts, well ew (tw ts) (p_sum fuel ts))
  /\ (forall e ts, well ew (ew e + tw ts) (p_sum_rest fuel e ts))
  /\ (forall ts, well ew (tw ts) (p_term fuel ts))
  /\ (forall e ts, well ew (ew e + tw ts) (p_term_rest fuel e ts))
  /\ (forall ts, well ew (tw ts) (p_factor fuel ts))
  /\ (forall ts, well ew (tw ts) (p_atom fuel ts))
  /\ (forall close ts, well ews (tw ts) (p_elems fuel close ts))
  /\ (forall ts, well (items_weight wn wa wb) (tw ts) (p_items fuel ts)).
Proof.
  induction fuel as [|fuel IH]; [repeat split; intros; syntax_error|].
  destruct IH as (IHexpr & IHor & IHorr & IHand & IHandr & IHnot & IHcmp & IHcmpr
                  & IHsum & IHsumr & IHterm & IHtermr & IHfactor & IHatom
                  & IHelems & IHitems).
  pose proof (p_trailers_weight fuel) as IHtrail.
  assert (Hcall : forall (n : nat) (res : result (expr * list token)) (m : nat),
             well ew m res -> m = n -> well ew n res) by (now intros n res m Hm <-).
  repeat split; intros;
    cbn [p_expr p_or p_or_rest p_and p_and_rest p_not p_cmp p_cmp_rest
         p_sum p_sum_rest p_term p_term_rest p_factor p_atom p_elems p_items];
    repeat
      match goal with
      | |- parsed_well _ _ _ _ _ (bind _ _) =>
          eapply parsed_well_bind;
          [ first [ apply IHexpr | apply IHor | apply IHorr | apply IHand
                  | apply IHandr | apply IHnot | apply IHcmp | apply IHcmpr
                  | apply IHsum | apply IHterm | apply IHfactor | apply IHatom
                  | apply IHelems | apply IHitems ]
          | intros ? ? ? ]
      | |- parsed_well _ _ _ _ _ (p_cmp fuel ?r) => apply IHcmp
      | |- parsed_well _ _ _ _ _ (p_sum_rest fuel ?e ?r) =>
          apply (Hcall _ _ _ (IHsumr e r)); weigh_goal
      | |- parsed_well _ _ _ _ _ (p_term_rest fuel ?e ?r) =>
          apply (Hcall _ _ _ (IHtermr e r)); weigh_goal
      | |- parsed_well _ _ _ _ _ (p_trailers fuel ?e ?r) =>
          apply (Hcall _ _ _ (IHtrail e r)); weigh_goal
      | |- parsed_well _ _ _ _ _ (Raise _) => syntax_error
      | |- parsed_well _ _ _ _ _ (Ok _) => weigh_goal
      | |- parsed_well _ _ _ _ _ (if ?b then _ else _) => destruct b eqn:?
      | |- parsed_well _ _ _ _ _ (match ?x with _ => _ end) =>
          tryif is_var x then destruct x else destruct x eqn:?
      | |- parsed_well _ _ _ _ _ (let (_, _) := ?x in _) =>
          destruct x eqn:?
      end.
Qed.

(** The tree that [ast_parse] returns weighs what the tokens weigh. *)
Lemma ast_parse_weight (cs : list ascii) :
  match ast_parse cs with
  | Ok e => exists ts, tokenize (S (List.length cs)) cs = Ok ts /\ tw ts = ew e
  | Raise x => syntax_class x
  end.
Proof.
  unfold ast_parse. destruct (200 <? List.length cs)%nat; [syntax_error|].
  pose proof (tokenize_class (S (List.length cs)) cs) as Ht.
  destruct (tokenize (S (List.length cs)) cs) as [ts|x]; [|exact Ht].
  cbn [bind].
  destruct (parser_weight (16 * S (List.length ts)))
    as (Hsum & _ & _ & _ & _ & _ & _ & _ & _ & _ & _ & _ & _ & _ & Helems & _).
  specialize (Hsum ts).
  destruct (p_expr (16 * S (List.length ts)) ts) as [[e r]|x]; [|exact Hsum].
  cbn [parsed_well] in Hsum. cbn [bind].
  destruct r as [|t r]; [syntax_error|].
  destruct t; try syntax_error.
  - specialize (Helems TEnd r).
    destruct (p_elems (16 * S (List.length ts)) TEnd r) as [[es r3]|x];
      cbn [bind]; [|exact Helems].
    cbn [parsed_well] in Helems. destruct r3; [|syntax_error].
    exists ts. split; [reflexivity|]. weigh_goal.
  - destruct r; [|syntax_error].
    exists ts. split; [reflexivity|]. weigh_goal.
Qed.

Lemma exprs_weight_zero (es : list expr) :
  Forall (fun e => ew e = 0) es -> ews es = 0.
Proof.
  induction 1 as [|e es He _ IH]; [reflexivity|].
  rewrite exprs_weight_cons. lia.
Qed.

Lemma exprs_weight_pos (e : expr) (es : list expr) :
  In e es -> 0 < ew e -> 0 < ews es.
Proof.
  induction es as [|e0 es IH]; [contradiction|].
  intros [-> | Hin] He; rewrite exprs_weight_cons; [lia|].
  specialize (IH Hin He). lia.
Qed.

End Weights.

(** Induction on trees, with the elements of the displays. *)
Lemma expr_induction (P : expr -> Prop) :
  (forall value, P (EConstant value)) ->
  (forall id, P (EName id)) ->
  (forall elts, Forall P elts -> P (EList elts)) ->
  (forall elts, Forall P elts -> P (ETuple elts)) ->
  (forall elts, Forall P elts -> P (ESet elts)) ->
  (forall keys values, Forall P keys -> Forall P values -> P (EDict keys values)) ->
  (forall value attr, P value -> P (EAttribute value attr)) ->
  (forall op operand, P operand -> P (EUnaryOp op operand)) ->
  (forall l op r, P l -> P r -> P (EBinOp l op r)) ->
  (forall op values, Forall P values -> P (EBoolOp op values)) ->
  (forall l ops comparators, P l -> Forall P comparators ->
        P (ECompare l ops comparators)) ->
  (forall test body orelse, P test -> P body -> P orelse ->
        P (EIfExp test body orelse)) ->
  forall e, P e.
Proof.
  intros Hconstant Hname Hlist Htuple Hset Hdict Hattribute Hunary Hbin
         Hbool Hcompare Hif.
  fix IH 1. intros e.
  assert (Hall : forall es, Forall P es).
  { fix IHes 1. intros [|e0 es]; constructor; [apply IH | apply IHes]. }
  destruct e.
  - apply Hconstant.
  - apply Hname.
  - apply Hlist, Hall.
  - apply Htuple, Hall.
  - apply Hset, Hall.
  - apply Hdict; apply Hall.
  - apply Hattribute, IH.
  - apply Hunary, IH.
  - apply Hbin; apply IH.
  - apply Hbool, Hall.
  - apply Hcompare; [apply IH | apply Hall].
  - apply Hif; apply IH.
Qed.

Lemma mapM_ok_inv {A B : Type} (f : A -> result B) (l : list A) (l' : list B) :
  mapM f l = Ok l' -> Forall (fun a => exists b, f a = Ok b) l.
Proof.
  revert l'. induction l as [|a l IH]; intros l' H; [constructor|].
  rewrite mapM_cons in H. destruct (f a) as [b|e] eqn:Hb; [|discriminate].
  cbn [bind] in H. destruct (mapM f l) as [bs|e]; [|discriminate].
  constructor; [now exists b | exact (IH bs eq_refl)].
Qed.

Lemma mapM_raise_inv {A B : Type} (f : A -> result B) (l : list A) (e : exn) :
  mapM f l = Raise e -> exists a, In a l /\ f a = Raise e.
Proof.
  induction l as [|a l IH]; intros H; [discriminate|].
  rewrite mapM_cons in H. destruct (f a) as [b|e'] eqn:Hb.
  - cbn [bind] in H. destruct (mapM f l) as [bs|e']; [discriminate|].
    cbn [bind] in H. injection H as ->.
    destruct (IH eq_refl) as (a' & Hin & Ha'). exists a'. split; [now right | exact Ha'].
  - cbn [bind] in H. injection H as ->. exists a. split; [now left | exact Hb].
Qed.

Lemma hashed_ok (v w : pyval) : hashed v = Ok w -> w = v.
Proof. unfold hashed. destruct (hashable v); [now intros [= <-] | discriminate]. Qed.

Lemma hashed_raise (v : pyval) (e : exn) : hashed v = Raise e -> e = TypeError.
Proof. unfold hashed. destruct (hashable v); [discriminate | now intros [= <-]]. Qed.

Lemma zip_items_ok_inv {A : Type} (f : A -> result pyval)
    (ks : list A) (rs : list (result pyval)) (items : list (pyval * pyval)) :
  zip_items f ks rs = Ok items -> List.length ks = List.length rs ->
  Forall (fun k => exists v, f k = Ok v) ks
  /\ Forall (fun r => exists v, r = Ok v) rs.
Proof.
  revert rs items. induction ks as [|k ks IH]; intros [|r rs] items H Hlen;
    try discriminate Hlen; [split; constructor|].
  cbn [zip_items] in H. destruct (f k) as [key|e] eqn:Hk; [|discriminate].
  cbn [bind] in H. destruct r as [value|e]; [|discriminate].
  cbn [bind] in H. destruct (hashed key); [|discriminate].
  cbn [bind] in H.
  destruct (zip_items f ks rs) as [items'|e] eqn:Hz; [|discriminate].
  injection Hlen as Hlen. destruct (IH rs items' Hz Hlen) as [Hks Hrs].
  split; constructor; eauto.
Qed.

Lemma zip_items_raise_inv {A : Type} (f : A -> result pyval)
    (ks : list A) (rs : list (result pyval)) (e : exn) :
  zip_items f ks rs = Raise e ->
  (exists k, In k ks /\ f k = Raise e) \/ In (Raise e) rs \/ e = TypeError.
Proof.
  revert rs. induction ks as [|k ks IH]; intros [|r rs] H; try discriminate H.
  cbn [zip_items] in H. destruct (f k) as [key|e'] eqn:Hk.
  - cbn [bind] in H. destruct r as [value|e'].
    + cbn [bind] in H. destruct (hashed key) as [key'|e'] eqn:Hh.
      * cbn [bind] in H.
        destruct (zip_items f ks rs) as [items'|e'] eqn:Hz; [discriminate|].
        cbn [bind] in H. injection H as ->.
        destruct (IH rs Hz) as [(k' & Hin & Hk') | [Hin | ->]].
        -- left. exists k'. split; [now right | exact Hk'].
        -- right. left. now right.
        -- right. now right.
      * cbn [bind] in H. injection H as ->. right. right.
        exact (hashed_raise _ _ Hh).
    + cbn [bind] in H. injection H as ->. right. left. now left.
  - cbn [bind] in H. injection H as ->. left. exists k. split; [now left | exact Hk].
Qed.

Lemma convert_signed_num_ok (node : expr) (v : pyval) (wn wa wb : nat) :
  _convert_signed_num node = Ok v -> expr_weight wn wa wb node = 0.
Proof.
  destruct node; try discriminate.
  - reflexivity.
  - cbn [_convert_signed_num expr_weight].
    destruct op; try discriminate; destruct node; try discriminate; reflexivity.
Qed.

Lemma convert_signed_num_raise (node : expr) (e : exn) :
  _convert_signed_num node = Raise e -> e = ValueError.
Proof.
  destruct node; cbn; try (now intros [= <-]).
  - destruct value; (discriminate || now intros [= <-]).
  - destruct op; cbn; try (now intros [= <-]);
      destruct node; cbn; try (now intros [= <-]);
      destruct value; cbn; try (now intros [= <-]); discriminate.
Qed.

Lemma convert_num_raise (node : expr) (e : exn) :
  _convert_num node = Raise e -> e = ValueError.
Proof.
  destruct node; cbn; try (now intros [= <-]).
  destruct value; (discriminate || now intros [= <-]).
Qed.

(** A tree that [_convert] turns into a value has neither a name nor an
    attribute nor an [@] in it. *)
Lemma convert_ok_weight (e : expr) :
  forall v, _convert e = Ok v -> expr_weight 1 1 0 e = 0.
Proof.
  induction e using expr_induction; intros v Hv.
  - reflexivity.
  - discriminate Hv.
  - cbn [_convert] in Hv. cbn [expr_weight].
    destruct (mapM _convert elts) as [vs|x] eqn:Hm; [|discriminate].
    apply mapM_ok_inv in Hm. apply exprs_weight_zero.
    rewrite Forall_forall in *. intros e He.
    destruct (Hm e He) as [w Hw]. exact (H e He w Hw).
  - cbn [_convert] in Hv. cbn [expr_weight].
    destruct (mapM _convert elts) as [vs|x] eqn:Hm; [|discriminate].
    apply mapM_ok_inv in Hm. apply exprs_weight_zero.
    rewrite Forall_forall in *. intros e He.
    destruct (Hm e He) as [w Hw]. exact (H e He w Hw).
  - cbn [_convert] in Hv. cbn [expr_weight].
    destruct (mapM _ elts) as [vs|x] eqn:Hm; [|discriminate].
    apply mapM_ok_inv in Hm. apply exprs_weight_zero.
    rewrite Forall_forall in *. intros e He.
    destruct (Hm e He) as [w Hw].
    destruct (_convert e) as [w'|x] eqn:He'; [|discriminate].
    exact (H e He w' He').
  - cbn [_convert] in Hv. cbn [expr_weight].
    destruct (Nat.eqb_spec (List.length keys) (List.length values)) as [Hlen|];
      [|discriminate].
    cbn [negb] in Hv.
    destruct (zip_items _convert keys (map _convert values)) as [items|x] eqn:Hz;
      [|discriminate].
    apply zip_items_ok_inv in Hz as [Hks Hvs]; [|now rewrite length_map].
    change (exprs_weight 1 1 0 keys + exprs_weight 1 1 0 values = 0).
    rewrite (exprs_weight_zero 1 1 0 keys), (exprs_weight_zero 1 1 0 values);
      [reflexivity | |].
    + rewrite Forall_forall in *. intros e He.
      destruct (Hvs (_convert e) (in_map _ _ _ He)) as [w Hw]. exact (H0 e He w Hw).
    + rewrite Forall_forall in *. intros e He.
      destruct (Hks e He) as [w Hw]. exact (H e He w Hw).
  - discriminate Hv.
  - exact (convert_signed_num_ok _ v 1 1 0 Hv).
  - exfalso. destruct op; cbn [_convert] in Hv.
    + destruct (_convert_signed_num e1); [|discriminate]. cbn [bind] in Hv.
      destruct (_convert_num e2); [|discriminate]. discriminate Hv.
    + destruct (_convert_signed_num e1); [|discriminate]. cbn [bind] in Hv.
      destruct (_convert_num e2); [|discriminate]. discriminate Hv.
    + discriminate Hv.
  - discriminate Hv.
  - discriminate Hv.
  - discriminate Hv.
Qed.

(** What [_convert] raises. *)
Lemma convert_raises (e : expr) :
  forall x, _convert e = Raise x -> convert_failure e x.
Proof.
  unfold convert_failure.
  induction e using expr_induction; intros x Hx.
  - discriminate Hx.
  - left. now injection Hx as <-.
  - cbn [_convert] in Hx. cbn [expr_weight].
    destruct (mapM _convert elts) as [vs|x'] eqn:Hm; [discriminate|].
    cbn [bind] in Hx. injection Hx as ->.
    apply mapM_raise_inv in Hm as (e & He & Hx). rewrite Forall_forall in H.
    destruct (H e He x Hx) as [-> | [-> | [-> Hpos]]]; auto.
    right. right. split; [reflexivity|]. exact (exprs_weight_pos 0 0 1 e elts He Hpos).
  - cbn [_convert] in Hx. cbn [expr_weight].
    destruct (mapM _convert elts) as [vs|x'] eqn:Hm; [discriminate|].
    cbn [bind] in Hx. injection Hx as ->.
    apply mapM_raise_inv in Hm as (e & He & Hx). rewrite Forall_forall in H.
    destruct (H e He x Hx) as [-> | [-> | [-> Hpos]]]; auto.
    right. right. split; [reflexivity|]. exact (exprs_weight_pos 0 0 1 e elts He Hpos).
  - cbn [_convert] in Hx. cbn [expr_weight].
    destruct (mapM _ elts) as [vs|x'] eqn:Hm.
    + cbn [bind] in Hx. unfold py_set in Hx.
      destruct (fold_left set_add vs []) as [|? [|? ?]]; try discriminate Hx.
      right. left. now injection Hx as <-.
    + cbn [bind] in Hx. injection Hx as ->.
      apply mapM_raise_inv in Hm as (e & He & Hx). rewrite Forall_forall in H.
      destruct (_convert e) as [w|x'] eqn:He'.
      * cbn [bind] in Hx. apply hashed_raise in Hx as ->.
        right. right. split; [reflexivity | lia].
      * cbn [bind] in Hx. injection Hx as ->.
        destruct (H e He x He') as [-> | [-> | [-> Hpos]]]; auto.
        right. right. split; [reflexivity | lia].
  - cbn [_convert] in Hx. cbn [expr_weight].
    destruct (negb _); [left; now injection Hx as <-|].
    destruct (zip_items _convert keys (map _convert values)) as [items|x'] eqn:Hz;
      [discriminate|].
    cbn [bind] in Hx. injection Hx as ->. rewrite Forall_forall in H, H0.
    apply zip_items_raise_inv in Hz as [(k & Hk & Hx) | [Hin | ->]].
    + destruct (H k Hk x Hx) as [-> | [-> | [-> Hpos]]]; auto.
      right. right. split; [reflexivity | lia].
    + apply in_map_iff in Hin as (e & Hx & He).
      destruct (H0 e He x Hx) as [-> | [-> | [-> Hpos]]]; auto.
      right. right. split; [reflexivity | lia].
    + right. right. split; [reflexivity | lia].
  - left. now injection Hx as <-.
  - left. exact (convert_signed_num_raise _ _ Hx).
  - left. destruct op; cbn [_convert] in Hx.
    + destruct (_convert_signed_num e1) eqn:H1;
        [|cbn [bind] in Hx; injection Hx as <-;
          exact (convert_signed_num_raise _ _ H1)].
      cbn [bind] in Hx.
      destruct (_convert_num e2) eqn:H2;
        [|cbn [bind] in Hx; injection Hx as <-; exact (convert_num_raise _ _ H2)].
      cbn [bind] in Hx. exact (convert_signed_num_raise _ _ Hx).
    + destruct (_convert_signed_num e1) eqn:H1;
        [|cbn [bind] in Hx; injection Hx as <-;
          exact (convert_signed_num_raise _ _ H1)].
      cbn [bind] in Hx.
      destruct (_convert_num e2) eqn:H2;
        [|cbn [bind] in Hx; injection Hx as <-; exact (convert_num_raise _ _ H2)].
      cbn [bind] in Hx. exact (convert_signed_num_raise _ _ Hx).
    + exact (convert_signed_num_raise _ _ Hx).
  - left. now injection Hx as <-.
  - left. now injection Hx as <-.
  - left. now injection Hx as <-.
Qed.

Lemma bare_tokens_weigh (ts : list token) :
  existsb bare_token ts = true -> 0 < tokens_weight 1 1 0 ts.
Proof.
  induction ts as [|t ts IH]; [discriminate|].
  cbn [existsb]. rewrite tokens_weight_cons. intros H.
  apply orb_true_iff in H as [Ht | H]; [|specialize (IH H); lia].
  destruct t; try discriminate Ht; cbn [token_weight bare_token] in *; [lia|].
  destruct (constant_name id); [discriminate | lia].
Qed.

Lemma no_brace_no_weight (ts : list token) :
  existsb brace_token ts = false -> tokens_weight 0 0 1 ts = 0.
Proof.
  induction ts as [|t ts IH]; [reflexivity|].
  cbn [existsb]. rewrite tokens_weight_cons. intros H.
  apply orb_false_iff in H as [Ht H]. rewrite (IH H).
  destruct t; try discriminate Ht; cbn [token_weight]; try reflexivity.
  now destruct (constant_name id).
Qed.

(** A cell with a bare name or an [@] among its tokens, and no brace, is
    never decoded: inside the fragment the decoder raises [ValueError] or
    [SyntaxError]. *)
Lemma unquoted_decode_fails (s : string) :
  unquoted s = true -> literal_eval_lit s <> unmodelled ->
  literal_eval_lit s = Raise ValueError \/ literal_eval_lit s = Raise SyntaxError.
Proof.
  unfold unquoted, tokens_of, literal_eval_lit. cbn zeta.
  set (cs := lstrip (list_ascii_of_string s)). intros Hu Hcov.
  destruct (tokenize (S (List.length cs)) cs) as [ts|x] eqn:Hts; [|discriminate].
  apply andb_true_iff in Hu as [Hbare Hbrace].
  apply negb_true_iff in Hbrace.
  pose proof (ast_parse_weight 1 1 0 cs) as Hw.
  pose proof (ast_parse_weight 0 0 1 cs) as Hb.
  destruct (ast_parse cs) as [e|x].
  - destruct Hw as (ts1 & Ht1 & Hw). destruct Hb as (ts2 & Ht2 & Hb).
    rewrite Hts in Ht1, Ht2. injection Ht1 as <-. injection Ht2 as <-.
    cbn [bind] in *. destruct (_convert e) as [v|x] eqn:Hc.
    + apply convert_ok_weight in Hc. apply bare_tokens_weigh in Hbare. lia.
    + destruct (convert_raises e x Hc) as [-> | [-> | [-> Hpos]]].
      * now left.
      * now contradiction Hcov.
      * rewrite (no_brace_no_weight ts Hbrace) in Hb. lia.
  - cbn [bind] in *. destruct Hw as [-> | ->]; [now right | now contradiction Hcov].
Qed.

(* ================================================================== *)
(** * The field parser *)

Lemma parse_null `{Decoder} (x : pyval) :
  pd_isna x = Ok true -> parse_email_array x = Ok (PyList []).
Proof. unfold parse_email_array. now intros ->. Qed.

Lemma parse_str `{Decoder} (s : string) :
  parse_email_array (PyStr s)
  = if String.eqb s "[]" then Ok (PyList [])
    else try_except (literal_eval_str s) decode_failure
           (Ok (PyList (map PyStr (findall email_re s)))).
Proof. reflexivity. Qed.

(** A decode failure of the two caught classes ends in the fallback. *)
Lemma parse_fallback `{Decoder} (s : string) (e : exn) :
  literal_eval_str s = Raise e -> decode_failure e = true ->
  parse_email_array (PyStr s) = Ok (PyList (map PyStr (findall email_re s))).
Proof.
  intros He Hc. rewrite parse_str.
  destruct (String.eqb_spec s "[]") as [->|_]; [reflexivity|].
  unfold try_except. now rewrite He, Hc.
Qed.

Lemma findall_texts (s : string) :
  map PyStr (findall email_re s)
  = texts s (scan email_re 0 0 (list_ascii_of_string s)).
Proof. unfold findall, texts. now rewrite map_map. Qed.

(** The characters of a returned address. *)
Lemma email_char_plain (c : ascii) :
  email_char c = true \/ c = "@"%char ->
  is_space c = false /\ c <> "["%char /\ c <> "]"%char /\ c <> ","%char.
Proof.
  destruct c as [b0 b1 b2 b3 b4 b5 b6 b7].
  destruct b0, b1, b2, b3, b4, b5, b6, b7; vm_compute;
    (intros [Hc | Hc]; [try discriminate Hc | try discriminate Hc]);
    repeat split; discriminate.
Qed.

Lemma maximal_at_chars (s : list ascii) (i n : nat) (c : ascii) :
  maximal_at s i n -> In c (slice i n s) ->
  email_char c = true \/ c = "@"%char.
Proof.
  intros [[_ (l & d & -> & _ & _ & Hl & Hd)] _] Hin.
  rewrite forallb_forall in Hl, Hd.
  apply in_app_or in Hin as [Hin | [<- | Hin]]; auto.
Qed.

(** C3: the cell [{[]}] is a string, as the loader makes of the text of
    a CSV field.  The decoder raises [TypeError] on it, a set cannot hold
    a list, and the handler catches [ValueError] and [SyntaxError] only:
    the decode has failed and [parse_email_array] raises to its caller
    instead of falling back to the scan.  The cell [[{[]}, a@b.com]]
    raises as well, though the scan would find its address, and so does
    a whole run of [process_csv] on a table with such a cell.  A numeric
    cell, as a column of numbers loads, fails the decode with
    [ValueError], and then the scan itself, run in the handler, raises
    [TypeError]. *)
Theorem unhashable_literal_raises :
  literal_eval_str "{[]}" = Raise TypeError
  /\ decode_failure TypeError = false
  /\ parse_email_array (PyStr "{[]}") = Raise TypeError
  /\ parse_email_array (PyStr "[{[]}, a@b.com]") = Raise TypeError
  /\ findall email_re "[{[]}, a@b.com]" = ["a@b.com"]
  /\ fst (process_csv 0 (store_of braced_leads)) = Raise TypeError
  /\ parse_email_array (PyInt 5) = Raise TypeError.
Proof. repeat split; vm_compute; reflexivity. Qed.

(** C4: the decode path returns the value of whatever literal the text
    spells: a quoted string comes back as a string, a number as a number,
    a tuple as a tuple, none of them sent to the fallback. *)
Theorem non_list_literals_are_returned :
  parse_email_array (PyStr "'a@b.com'") = Ok (PyStr "a@b.com")
  /\ parse_email_array (PyStr "5") = Ok (PyInt 5)
  /\ parse_email_array (PyStr "(1, 2)") = Ok (PyTuple [PyInt 1; PyInt 2]).
Proof. repeat split; vm_compute; reflexivity. Qed.

(** C6 (counterexample): on the text [a@b@c] the decode fails and the
    fallback returns [a@b] alone, though [b@c], at position 2, is a
    maximal substring matching the pattern too. *)
Lemma overlapping_match_is_dropped :
  literal_eval_str "a@b@c" = Raise ValueError
  /\ parse_email_array (PyStr "a@b@c") = Ok (PyList [PyStr "a@b"])
  /\ maximal_at (list_ascii_of_string "a@b@c") 2 3
  /\ string_of_list_ascii (slice 2 3 (list_ascii_of_string "a@b@c")) = "b@c"
  /\ ~ In (PyStr "b@c") [PyStr "a@b"].
Proof.
  split; [vm_compute; reflexivity|]. split; [vm_compute; reflexivity|].
  split; [|split; [reflexivity|]].
  - apply match_at_maximal. split; [vm_compute; reflexivity|].
    right. exists "@"%char. split; reflexivity.
  - intros [H | []]. discriminate H.
Qed.

(** C6 (amended): for every string on which the structured decode fails
    with [ValueError] or [SyntaxError], [parse_email_array] returns the
    matches of a scan from left to right: they come in order of appearance
    and do not overlap, each is a maximal substring matching the pattern,
    and a maximal matching substring is missing only when a returned match
    runs over its start. *)
Theorem fallback_returns_scanned_matches `{Decoder} (s : string) (e : exn) :
  literal_eval_str s = Raise e -> decode_failure e = true ->
  exists ms,
    parse_email_array (PyStr s) = Ok (PyList (texts s ms))
    /\ in_order 0 ms
    /\ (forall m, In m ms -> maximal_at (list_ascii_of_string s) (fst m) (snd m))
    /\ (forall i n, maximal_at (list_ascii_of_string s) i n ->
          In (i, n) ms \/ exists m, In m ms /\ fst m < i < fst m + snd m).
Proof.
  intros He Hc. exists (scan email_re 0 0 (list_ascii_of_string s)).
  split.
  - rewrite (parse_fallback s e He Hc). now rewrite findall_texts.
  - apply scan_email.
Qed.

Lemma fallback_returns_scanned_matches_witness :
  exists ms,
    parse_email_array (PyStr "has x@y.com, z@w.org embedded")
    = Ok (PyList (texts "has x@y.com, z@w.org embedded" ms))
    /\ in_order 0 ms
    /\ (forall m, In m ms ->
          maximal_at (list_ascii_of_string "has x@y.com, z@w.org embedded")
                     (fst m) (snd m))
    /\ (forall i n,
          maximal_at (list_ascii_of_string "has x@y.com, z@w.org embedded") i n ->
          In (i, n) ms \/ exists m, In m ms /\ fst m < i < fst m + snd m).
Proof.
  apply (fallback_returns_scanned_matches
           "has x@y.com, z@w.org embedded" SyntaxError);
    vm_compute; reflexivity.
Defined.




(* ================================================================== *)
(** * The row expander *)

Lemma existsb_index_of (name : string) (cols : list string) :
  existsb (String.eqb name) cols = false -> index_of name cols = None.
Proof.
  induction cols as [|c cols IH]; cbn; intros H; [reflexivity|].
  apply orb_false_iff in H as [Hc H]. rewrite String.eqb_sym, Hc, (IH H). reflexivity.
Qed.

Lemma map_rename_same (cols : list string) (old new : string) :
  ~ In old cols -> map (fun c => if String.eqb c old then new else c) cols = cols.
Proof.
  induction cols as [|c cols IH]; cbn; intros H; [reflexivity|].
  destruct (String.eqb_spec c old) as [->|_]; [tauto|]. rewrite IH by tauto. reflexivity.
Qed.

Lemma fan_out_new (cols : list string) (r : row) (p : pyval) :
  ~ In "parsed_emails" cols ->
  fan_out cols (r, p) = map (with_email r) (explode_cell p).
Proof.
  intros Hin. unfold fan_out, assign_row, assign, with_email. cbn [fst snd].
  now rewrite (index_of_none _ _ Hin).
Qed.

Lemma single_emails (cols : list string) (rs : list row) (es : list pyval) :
  ~ In "parsed_emails" cols ->
  flat_map (fan_out cols)
    (filter (fun rp => kept (snd rp)) (combine rs (map (fun e => PyList [e]) es)))
  = map (fun re => with_email (fst re) (snd re)) (combine rs es).
Proof.
  intros Hin. revert es. induction rs as [|r rs IH]; intros [|e es]; try reflexivity.
  cbn [map combine filter snd kept py_len List.length Nat.ltb Nat.leb flat_map].
  rewrite (fan_out_new _ _ _ Hin), IH. reflexivity.
Qed.

(** The parsed values, row by row: each is what [parse_email_array]
    returned for the row's cell in the array column. *)
Lemma parsed_by_row `{Decoder} (t : DataFrame) (vals parsed : list pyval) :
  email_array t = Ok vals ->
  mapM parse_email_array vals = Ok parsed ->
  exists k, index_of "pii.Email_Array" (columns t) = Some k
            /\ Forall2 (fun r p => parse_email_array (cell k r) = Ok p)
                       (rows t) parsed.
Proof.
  unfold email_array, column_values. intros Hv Hp.
  destruct (index_of "pii.Email_Array" (columns t)) as [k|]; [|discriminate].
  injection Hv as <-. exists k. split; [reflexivity|].
  apply mapM_Forall2 in Hp. revert parsed Hp.
  induction (rows t) as [|r rs IH]; intros parsed Hp; inversion Hp; subst;
    constructor; auto.
Qed.

(** A row of the expansion comes from a kept record and from one element
    of its parsed value. *)
Lemma fanned_row (P : row -> pyval -> Prop) (cols : list string)
    (rs : list row) (parsed : list pyval) (r' : row) :
  Forall2 P rs parsed ->
  In r' (flat_map (fan_out cols)
           (filter (fun rp => kept (snd rp)) (combine rs parsed))) ->
  exists r p e,
    In r rs /\ P r p /\ kept p = true /\ In e (explode_cell p)
    /\ r' = assign_row cols "parsed_emails" (r, e).
Proof.
  intros Hall Hin. apply in_flat_map in Hin as ([r p] & Hrp & Hin).
  apply filter_In in Hrp as [Hrp Hkept]. cbn [snd] in Hkept.
  unfold fan_out in Hin. apply in_map_iff in Hin as (e & <- & He).
  cbn [fst snd] in *. exists r, p, e. repeat split; try assumption.
  - exact (in_combine_l _ _ _ _ Hrp).
  - clear - Hall Hrp. induction Hall as [|r0 p0 rs parsed H0 _ IH]; cbn in Hrp;
      [contradiction|].
    destruct Hrp as [[= -> ->] | Hrp]; [exact H0 | exact (IH Hrp)].
Qed.

(** The elements that a kept list fans out to are its own. *)
Lemma explode_kept_list (es : list pyval) (e : pyval) :
  kept (PyList es) = true -> In e (explode_cell (PyList es)) -> In e es.
Proof.
  destruct es as [|e0 es]; [discriminate|]. intros _ Hin. exact Hin.
Qed.

Lemma explode_cell_length (p : pyval) (n : nat) :
  is_list_like p = true -> py_len p = Ok n -> 0 < n ->
  List.length (explode_cell p) = n.
Proof.
  unfold explode_cell. intros Hl Hn Hpos. rewrite Hl.
  destruct p; try discriminate Hl; cbn in Hn; injection Hn as <-;
    cbn [py_list]; (destruct elts || destruct items); cbn in *;
    try rewrite length_map; (lia || reflexivity).
Qed.

Lemma fan_out_rows (cols : list string) (rs : list row)
    (parsed : list pyval) (lens : list nat) :
  Forall (fun p => is_list_like p = true) parsed ->
  mapM py_len parsed = Ok lens ->
  List.length
    (flat_map (fan_out cols)
       (filter (fun rp => kept (snd rp)) (combine rs parsed)))
  = list_sum (firstn (List.length rs) lens).
Proof.
  intros Hll. revert rs lens.
  induction Hll as [|p parsed Hp Hps IH]; intros rs lens Hm.
  - cbn in Hm. injection Hm as <-. rewrite combine_nil, firstn_nil. reflexivity.
  - cbn in Hm. destruct (py_len p) as [n|e] eqn:Hn; [|discriminate]. cbn in Hm.
    destruct (mapM py_len parsed) as [ns|e] eqn:Hns; [|discriminate]. cbn in Hm.
    injection Hm as <-. destruct rs as [|r rs]; [reflexivity|].
    cbn [combine filter snd List.length firstn].
    change (list_sum (n :: firstn (List.length rs) ns))
      with (n + list_sum (firstn (List.length rs) ns)).
    unfold kept at 1. rewrite Hn. destruct (Nat.ltb_spec 0 n) as [Hpos|Hz].
    + cbn [flat_map]. rewrite length_app, (IH rs ns eq_refl).
      unfold fan_out at 1. cbn [snd]. rewrite length_map.
      rewrite (explode_cell_length p n Hp Hn Hpos). reflexivity.
    + rewrite (IH rs ns eq_refl). lia.
Qed.

(** X9: in a successful run on a table of rows as wide as its header,
    when every parsed value is a list, a tuple, a set or a dict, the run
    makes one row per element: [rows_after] is [emails_found]. *)
Lemma list_like_rows_match_emails `{Decoder}
    (df out : nat) (stats : Stats) (st st' : store) :
  well_formed (frames st df) ->
  process_csv df st = (Ok (out, stats), st') ->
  (forall vals parsed,
     email_array (frames st df) = Ok vals ->
     mapM parse_email_array vals = Ok parsed ->
     Forall (fun p => is_list_like p = true) parsed) ->
  rows_after stats = emails_found stats.
Proof.
  intros Hwf Hrun Hll.
  destruct (process_csv_result df out stats st st' Hwf Hrun)
    as (vals & parsed & lens & Hv & Hp & Hl & Hlen & _ & Hrows & _ & Ha & He).
  rewrite Ha, He, Hrows, (fan_out_rows _ _ parsed lens (Hll vals parsed Hv Hp) Hl).
  rewrite firstn_all2; [reflexivity|].
  rewrite (mapM_length _ _ _ Hl). lia.
Qed.

(** C1: one lead whose cell is the quoted address ['a@b.com'].  The
    decoder returns the string, whose length is 7, and [explode] keeps a
    string as one row: the run reports 7 e-mails found and 1 row. *)
Theorem quoted_address_counts_characters :
  let (r, st') := process_csv 0 (store_of quoted_lead) in
  match r with
  | Ok (out, stats) =>
      stats = {| rows_before := 1; rows_after := 1; emails_found := 7 |}
      /\ rows (frames st' out)
         = [ {| label := 0;
                cells := [PyInt 1; PyStr "'a@b.com'"; PyStr "a@b.com"] |} ]
  | Raise _ => False
  end.
Proof. vm_compute. split; reflexivity. Qed.




(** C5: when the table has no column [pii.Email_Array], [main] shows the
    error message and does nothing else: [process_csv] is not called, no
    frame besides the uploaded one exists afterwards, and the page has
    neither a processed table nor a download button.  [process_csv]
    itself, called on such a table, raises [KeyError] on its first access
    to the column, having made nothing but its working copy. *)
Theorem missing_column_is_reported `{Decoder} (table : DataFrame) :
  existsb (String.eqb "pii.Email_Array") (columns table) = false ->
  main (Some table) empty_store
  = (Ok (page_head
         ++ [st_subheader "Original Data (First 5 Rows)";
             st_dataframe {| columns := columns table;
                             rows := firstn 5 (rows table) |};
             st_error missing_column_message]),
     store_of table)
  /\ forall st df, frames st df = table ->
       fst (process_csv df st) = Raise KeyError
       /\ next (snd (process_csv df st)) = S (next st)
       /\ frames (snd (process_csv df st)) (next st) = table.
Proof.
  intros Hcol. split.
  - cbv [main bind_py new_frame head load ret empty_store frames next].
    rewrite update_same, Hcol. reflexivity.
  - intros st df <-.
    unfold process_csv, copy, getitem, bind_py, load, new_frame, lift.
    cbn [frames next]. rewrite update_same.
    unfold column_values. rewrite (existsb_index_of _ _ Hcol).
    cbn [fst snd frames next]. rewrite update_same. repeat split.
Qed.

Lemma missing_column_is_reported_witness :
  main (Some no_array) empty_store
  = (Ok (page_head
         ++ [st_subheader "Original Data (First 5 Rows)";
             st_dataframe {| columns := columns no_array;
                             rows := firstn 5 (rows no_array) |};
             st_error missing_column_message]),
     store_of no_array)
  /\ forall st df, frames st df = no_array ->
       fst (process_csv df st) = Raise KeyError
       /\ next (snd (process_csv df st)) = S (next st)
       /\ frames (snd (process_csv df st)) (next st) = no_array.
Proof. apply (missing_column_is_reported no_array). reflexivity. Defined.

(** C7: in a successful run on a table of rows as wide as its header,
    [rows_before] is the number of source records, and [emails_found] is the sum of the lengths of the parsed
    values of all of them, one per source record, those of length zero
    among them: both are taken before any record is dropped. *)
Theorem counts_cover_the_whole_input `{Decoder}
    (df out : nat) (stats : Stats) (st st' : store) :
  well_formed (frames st df) ->
  process_csv df st = (Ok (out, stats), st') ->
  exists vals parsed lens,
    email_array (frames st df) = Ok vals
    /\ mapM parse_email_array vals = Ok parsed
    /\ mapM py_len parsed = Ok lens
    /\ List.length parsed = List.length (rows (frames st df))
    /\ List.length lens = List.length (rows (frames st df))
    /\ rows_before stats = List.length (rows (frames st df))
    /\ emails_found stats = list_sum lens.
Proof.
  intros Hwf Hrun.
  destruct (process_csv_result df out stats st st' Hwf Hrun)
    as (vals & parsed & lens & Hv & Hp & Hl & Hlen & _ & _ & Hb & _ & He).
  exists vals, parsed, lens. repeat split; try assumption.
  rewrite (mapM_length _ _ _ Hl). exact Hlen.
Qed.

Lemma counts_cover_the_whole_input_witness :
  exists out stats st',
    process_csv 0 (store_of leads) = (Ok (out, stats), st')
    /\ exists vals parsed lens,
         email_array (frames (store_of leads) 0) = Ok vals
         /\ mapM parse_email_array vals = Ok parsed
         /\ mapM py_len parsed = Ok lens
         /\ List.length parsed = List.length (rows (frames (store_of leads) 0))
         /\ List.length lens = List.length (rows (frames (store_of leads) 0))
         /\ rows_before stats = List.length (rows (frames (store_of leads) 0))
         /\ emails_found stats = list_sum lens.
Proof.
  destruct (process_csv 0 (store_of leads)) as [[[out stats]|e] st'] eqn:Hrun;
    [|vm_compute in Hrun; discriminate Hrun].
  exists out, stats, st'. split; [reflexivity|].
  apply (counts_cover_the_whole_input 0 out stats (store_of leads) st');
    [repeat constructor | exact Hrun].
Defined.

(** C8: in a successful run on a table of rows as wide as its header,
    the rows of the expanded table are the fan-outs of the kept source
    rows, one after the other in the order of the source rows; the
    fan-out of a row whose parsed value is a list holds one row per
    element, in the order of the list. *)
Theorem expanded_rows_follow_the_source `{Decoder}
    (df out : nat) (stats : Stats) (st st' : store) :
  well_formed (frames st df) ->
  process_csv df st = (Ok (out, stats), st') ->
  exists vals parsed,
    email_array (frames st df) = Ok vals
    /\ mapM parse_email_array vals = Ok parsed
    /\ rows (frames st' out)
       = flat_map (fan_out (columns (frames st df)))
           (filter (fun rp => kept (snd rp)) (combine (rows (frames st df)) parsed))
    /\ forall r e es,
         fan_out (columns (frames st df)) (r, PyList (e :: es))
         = map (fun v => assign_row (columns (frames st df)) "parsed_emails" (r, v))
               (e :: es).
Proof.
  intros Hwf Hrun.
  destruct (process_csv_result df out stats st st' Hwf Hrun)
    as (vals & parsed & lens & Hv & Hp & _ & _ & _ & Hrows & _).
  exists vals, parsed. repeat split; assumption.
Qed.

Lemma expanded_rows_follow_the_source_witness :
  exists out stats st',
    process_csv 0 (store_of leads) = (Ok (out, stats), st')
    /\ exists vals parsed,
         email_array (frames (store_of leads) 0) = Ok vals
         /\ mapM parse_email_array vals = Ok parsed
         /\ rows (frames st' out)
            = flat_map (fan_out (columns (frames (store_of leads) 0)))
                (filter (fun rp => kept (snd rp))
                        (combine (rows (frames (store_of leads) 0)) parsed))
         /\ forall r e es,
              fan_out (columns (frames (store_of leads) 0)) (r, PyList (e :: es))
              = map (fun v => assign_row (columns (frames (store_of leads) 0))
                                         "parsed_emails" (r, v))
                    (e :: es).
Proof.
  destruct (process_csv 0 (store_of leads)) as [[[out stats]|e] st'] eqn:Hrun;
    [|vm_compute in Hrun; discriminate Hrun].
  exists out, stats, st'. split; [reflexivity|].
  apply (expanded_rows_follow_the_source 0 out stats (store_of leads) st');
    [repeat constructor | exact Hrun].
Defined.

(** C9: whatever the run does, every frame that existed before the call,
    the caller's table among them, is the same after it: the assignment of
    the parsed column goes to the copy. *)
Theorem callers_table_is_unchanged `{Decoder} (df r : nat) (st : store) :
  r < next st -> frames (snd (process_csv df st)) r = frames st r.
Proof.
  intros Hr.
  unfold process_csv, copy, getitem, setitem, apply, len, getitem_mask,
    df_explode, df_rename, bind_py, load, save, new_frame, lift, ret.
  cbn [frames next]. store_simpl.
  destruct (column_values (frames st df) "pii.Email_Array") as [vals|e];
    [|cbn [snd frames]; now store_simpl].
  destruct (mapM parse_email_array vals) as [parsed|e];
    [|cbn [snd frames]; now store_simpl].
  destruct (set_column (frames st df) "parsed_emails" parsed) as [t1|e];
    [|cbn [snd frames]; now store_simpl].
  cbn [frames next]. store_simpl.
  destruct (column_values t1 "parsed_emails") as [pe|e];
    [|cbn [snd frames]; now store_simpl].
  destruct (mapM py_len pe) as [lens|e]; [|cbn [snd frames]; now store_simpl].
  cbn [frames next]. store_simpl.
  destruct (explode _ "parsed_emails") as [t3|e];
    cbn [snd frames next]; now store_simpl.
Qed.

Lemma callers_table_is_unchanged_witness :
  frames (snd (process_csv 0 (store_of leads))) 0 = frames (store_of leads) 0.
Proof. apply (callers_table_is_unchanged 0 0 (store_of leads)). cbn. lia. Defined.

(* ================================================================== *)
(** * More on the fallback *)

Lemma scan_skip_all (r : regex) (s : list ascii) (skip pos : nat) :
  List.length s <= skip -> scan r skip pos s = [].
Proof.
  revert skip pos. induction s as [|a s IH]; intros skip pos H; [reflexivity|].
  cbn in H. destruct skip as [|k]; [lia|]. cbn [scan]. apply IH. lia.
Qed.

Lemma email_like_run (w : list ascii) :
  email_like w -> re_match email_re w = Some (List.length w).
Proof.
  intros (l & d & -> & Hl & Hd & Hal & Had).
  rewrite (run_match_re_match (l ++ "@"%char :: d) l d []).
  - rewrite length_app. reflexivity.
  - unfold run_match. rewrite app_nil_r. repeat split; assumption.
Qed.

Lemma email_like_scan (w : list ascii) :
  email_like w -> scan email_re 0 0 w = [(0, List.length w)].
Proof.
  intros Hw. pose proof (email_like_run w Hw) as Hm.
  destruct w as [|a w]; [discriminate Hm|].
  cbn [scan]. rewrite Hm. cbn [List.length pred].
  rewrite scan_skip_all by lia. reflexivity.
Qed.

Lemma found_email_like (s u : string) :
  In u (findall email_re s) -> email_like (list_ascii_of_string u).
Proof.
  unfold findall. intros Hu. apply in_map_iff in Hu as (m & <- & Hm).
  rewrite list_ascii_of_string_of_list_ascii.
  apply scan_email in Hm. apply Hm.
Qed.

(** X1: an address that the scan returns is returned again, and alone,
    when the scan is run on the address itself. *)
Theorem found_address_is_found_again (s u : string) :
  In u (findall email_re s) -> findall email_re u = [u].
Proof.
  intros Hu. apply found_email_like in Hu.
  unfold findall. rewrite (email_like_scan _ Hu). cbn [map fst snd].
  unfold slice. cbn [skipn]. rewrite firstn_all.
  now rewrite string_of_list_ascii_of_string.
Qed.

Lemma found_address_is_found_again_witness :
  findall email_re "a@b.com" = ["a@b.com"].
Proof.
  apply (found_address_is_found_again "[a@b.com, c@d.com]" "a@b.com").
  vm_compute. left. reflexivity.
Defined.

(** X2: every address that the scan returns, on any text, is made of a
    non-empty run of word characters, dots and hyphens, one [@], and
    another non-empty run of such characters. *)
Theorem found_address_has_two_parts (s u : string) :
  In u (findall email_re s) ->
  exists l d,
    list_ascii_of_string u = l ++ "@"%char :: d
    /\ l <> [] /\ d <> []
    /\ forallb email_char l = true /\ forallb email_char d = true.
Proof. intros Hu. exact (found_email_like s u Hu). Qed.

Lemma found_address_has_two_parts_witness :
  exists l d,
    list_ascii_of_string "c@d.com" = l ++ "@"%char :: d
    /\ l <> [] /\ d <> []
    /\ forallb email_char l = true /\ forallb email_char d = true.
Proof.
  apply (found_address_has_two_parts "[a@b.com, c@d.com]" "c@d.com").
  vm_compute. right. left. reflexivity.
Defined.

Lemma In_slice {A : Type} (c : A) (i n : nat) (s : list A) :
  In c (slice i n s) -> In c s.
Proof.
  unfold slice. intros H.
  rewrite <- (firstn_skipn i s). apply in_or_app. right.
  rewrite <- (firstn_skipn n (skipn i s)). apply in_or_app. left. exact H.
Qed.

Lemma no_at_no_match (s : list ascii) :
  ~ In "@"%char s -> scan email_re 0 0 s = [].
Proof.
  intros Hno. destruct (scan email_re 0 0 s) as [|m ms] eqn:Hs; [reflexivity|].
  exfalso. apply Hno.
  assert (Hm : In m (scan email_re 0 0 s)) by (rewrite Hs; left; reflexivity).
  apply scan_email in Hm. destruct Hm as [[_ (l & d & Hu & _)] _].
  apply (In_slice _ (fst m) (snd m)). rewrite Hu.
  apply in_or_app. right. left. reflexivity.
Qed.

(** X3: when the decode of a text without any [@] fails with
    [ValueError] or [SyntaxError], the result is the empty list. *)
Theorem text_without_at_gives_no_address `{Decoder} (s : string) (e : exn) :
  literal_eval_str s = Raise e -> decode_failure e = true ->
  ~ In "@"%char (list_ascii_of_string s) ->
  parse_email_array (PyStr s) = Ok (PyList []).
Proof.
  intros He Hc Hno. rewrite (parse_fallback s e He Hc).
  unfold findall. now rewrite (no_at_no_match _ Hno).
Qed.

Lemma text_without_at_gives_no_address_witness :
  parse_email_array (PyStr "[malformed") = Ok (PyList []).
Proof.
  apply (text_without_at_gives_no_address "[malformed" SyntaxError).
  - vm_compute. reflexivity.
  - reflexivity.
  - vm_compute. intuition discriminate.
Defined.

Lemma count_at_split (s : list ascii) (n : nat) :
  count_occ ascii_dec s "@"%char
  = count_occ ascii_dec (firstn n s) "@"%char
    + count_occ ascii_dec (skipn n s) "@"%char.
Proof. rewrite <- (firstn_skipn n s) at 1. apply count_occ_app. Qed.

Lemma match_holds_at (s : list ascii) (n : nat) :
  re_match email_re s = Some n ->
  1 <= count_occ ascii_dec (firstn n s) "@"%char.
Proof.
  intros Hm. apply re_match_email_some in Hm as (l & d & post & (-> & _) & ->).
  replace (l ++ "@"%char :: d ++ post) with ((l ++ "@"%char :: d) ++ post)
    by (rewrite <- app_assoc; reflexivity).
  replace (List.length l + S (List.length d))
    with (List.length (l ++ "@"%char :: d))
    by (rewrite length_app; reflexivity).
  rewrite firstn_length_app, count_occ_app. cbn [count_occ].
  destruct (ascii_dec "@" "@"); [lia | congruence].
Qed.

Lemma scan_count (s : list ascii) (skip pos : nat) :
  List.length (scan email_re skip pos s)
  <= count_occ ascii_dec (skipn skip s) "@"%char.
Proof.
  revert skip pos. induction s as [|a s IH]; intros skip pos.
  - cbn. lia.
  - cbn [scan]. destruct skip as [|k]; [|apply IH].
    destruct (re_match email_re (a :: s)) as [n|] eqn:Hm.
    + pose proof (re_match_email_length _ _ Hm) as Hlen.
      pose proof (match_holds_at _ _ Hm) as Hat.
      cbn [List.length skipn]. specialize (IH (pred n) (S pos)).
      rewrite (count_at_split (a :: s) n).
      destruct n as [|n']; [lia|]. cbn [pred skipn] in *. lia.
    + specialize (IH 0 (S pos)). cbn [skipn] in *. cbn [count_occ].
      destruct (ascii_dec a "@"); lia.
Qed.

(** X4: the scan returns at most as many addresses as the text has
    [@] characters. *)
Theorem at_most_one_address_per_at (s : string) :
  List.length (findall email_re s)
  <= count_occ ascii_dec (list_ascii_of_string s) "@"%char.
Proof. unfold findall. rewrite length_map. apply (scan_count _ 0 0). Qed.

(** ** Texts joined by a separator *)

Lemma span_separator (x y : list ascii) (sep : ascii) :
  email_char sep = false ->
  span email_char (x ++ sep :: y)
  = (fst (span email_char x), snd (span email_char x) ++ sep :: y).
Proof.
  intros Hsep. induction x as [|a x IH]; cbn [app span].
  - now rewrite Hsep.
  - destruct (email_char a); [|reflexivity].
    rewrite IH. destruct (span email_char x). reflexivity.
Qed.

(** A separator that is neither an e-mail character nor [@] ends every
    match before it. *)
Lemma re_match_separator (x y : list ascii) (sep : ascii) :
  email_char sep = false -> sep <> "@"%char ->
  re_match email_re (x ++ sep :: y) = re_match email_re x.
Proof.
  intros Hsep Hat. rewrite !re_match_email, (span_separator x y sep Hsep).
  destruct (span email_char x) as [l r]. cbn [fst snd].
  destruct l as [|a l]; [reflexivity|].
  destruct r as [|b t]; cbn [app].
  - destruct (Ascii.eqb_spec sep "@"); [contradiction | reflexivity].
  - destruct (Ascii.eqb b "@"); [|reflexivity].
    now rewrite (span_separator t y sep Hsep).
Qed.

Lemma scan_shift (r : regex) (s : list ascii) (skip pos k : nat) :
  scan r skip (pos + k) s
  = map (fun m => (fst m + k, snd m)) (scan r skip pos s).
Proof.
  revert skip pos. induction s as [|a s IH]; intros skip pos; [reflexivity|].
  cbn [scan]. destruct skip as [|j]; [|apply (IH j (S pos))].
  destruct (re_match r (a :: s)); cbn [map fst snd]; now rewrite <- (IH _ (S pos)).
Qed.

Lemma scan_separator (x y : list ascii) (sep : ascii) (skip pos : nat) :
  email_char sep = false -> sep <> "@"%char -> skip <= List.length x ->
  scan email_re skip pos (x ++ sep :: y)
  = scan email_re skip pos x ++ scan email_re 0 (pos + S (List.length x)) y.
Proof.
  intros Hsep Hat. revert skip pos.
  induction x as [|a x IH]; intros skip pos Hskip.
  - cbn in Hskip. replace skip with 0 by lia. cbn [app scan List.length].
    rewrite re_match_email_start by (cbn; exact Hsep).
    now rewrite Nat.add_1_r.
  - cbn [app scan List.length]. destruct skip as [|k].
    + change (a :: x ++ sep :: y) with ((a :: x) ++ sep :: y).
      rewrite (re_match_separator (a :: x) y sep Hsep Hat).
      destruct (re_match email_re (a :: x)) as [n|] eqn:Hm.
      * pose proof (re_match_email_length _ _ Hm) as Hlen. cbn in Hlen.
        rewrite IH by lia. cbn [app]. do 3 f_equal. lia.
      * rewrite IH by lia. do 2 f_equal. lia.
    + cbn in Hskip. rewrite IH by lia. do 2 f_equal. lia.
Qed.

Lemma list_ascii_of_string_app (s1 s2 : string) :
  list_ascii_of_string (s1 ++ s2)
  = list_ascii_of_string s1 ++ list_ascii_of_string s2.
Proof. induction s1 as [|a s1 IH]; cbn; [reflexivity | now rewrite IH]. Qed.

Lemma slice_left {A : Type} (x y : list A) (i n : nat) :
  i + n <= List.length x -> slice i n (x ++ y) = slice i n x.
Proof.
  intros H. unfold slice. rewrite skipn_app, firstn_app.
  rewrite length_skipn.
  replace (n - (List.length x - i)) with 0 by lia.
  cbn [firstn]. apply app_nil_r.
Qed.

Lemma slice_right {A : Type} (x y : list A) (i n : nat) :
  slice (i + List.length x) n (x ++ y) = slice i n y.
Proof.
  unfold slice. rewrite skipn_app.
  rewrite skipn_all2 by lia. cbn [app]. do 2 f_equal. lia.
Qed.

(** X5: in two texts joined by a separator that is neither a word
    character, a dot, a hyphen nor [@] (a comma or a blank, say), the scan
    finds the addresses of the first text followed by those of the
    second. *)
Theorem separated_texts_scan_apart (s1 s2 : string) (sep : ascii) :
  email_char sep = false -> sep <> "@"%char ->
  findall email_re (s1 ++ String sep s2)
  = findall email_re s1 ++ findall email_re s2.
Proof.
  intros Hsep Hat. unfold findall.
  rewrite list_ascii_of_string_app. cbn [list_ascii_of_string].
  set (x := list_ascii_of_string s1). set (y := list_ascii_of_string s2).
  rewrite (scan_separator x y sep 0 0 Hsep Hat) by lia.
  rewrite map_app. f_equal.
  - apply map_ext_in. intros m Hm. f_equal. apply slice_left.
    apply scan_email in Hm. apply Hm.
  - rewrite (scan_shift email_re y 0 0 (S (List.length x))), map_map.
    apply map_ext. intros m. cbn [fst snd]. f_equal.
    change (x ++ sep :: y) with (x ++ [sep] ++ y). rewrite app_assoc.
    replace (S (List.length x)) with (List.length (x ++ [sep]))
      by (rewrite length_app; cbn; lia).
    apply slice_right.
Qed.

Lemma separated_texts_scan_apart_witness :
  findall email_re ("a@b.com" ++ String "," " c@d.org")
  = findall email_re "a@b.com" ++ findall email_re " c@d.org".
Proof.
  apply (separated_texts_scan_apart "a@b.com" " c@d.org" ",");
    [reflexivity | discriminate].
Defined.

(** X6: on a string cell [parse_email_array] raises exactly when the
    text is not [[]] and the decoder raises an exception other than
    [ValueError] and [SyntaxError]; the exception raised is the
    decoder's. *)
Theorem text_cell_raises_only_uncaught `{Decoder} (s : string) (e : exn) :
  parse_email_array (PyStr s) = Raise e
  <-> s <> "[]" /\ literal_eval_str s = Raise e /\ decode_failure e = false.
Proof.
  rewrite parse_str. destruct (String.eqb_spec s "[]") as [->|Hne].
  - split; [discriminate | intros [Hc _]; congruence].
  - unfold try_except. destruct (literal_eval_str s) as [v|e'] eqn:He.
    + split; [discriminate | intros (_ & Hr & _); discriminate].
    + destruct (decode_failure e') eqn:Hc.
      * split; [discriminate | intros (_ & [= <-] & Hf); congruence].
      * split; [intros [= <-]; auto | intros (_ & [= <-] & _); reflexivity].
Qed.

(* ================================================================== *)
(** * More on the row expander *)

(** The result of [process_csv], step by step, without the store. *)
Lemma process_csv_fst `{Decoder} (df : nat) (st : store) :
  fst (process_csv df st)
  = (vals <- email_array (frames st df) ;;
     parsed <- mapM parse_email_array vals ;;
     t1 <- set_column (frames st df) "parsed_emails" parsed ;;
     pe <- column_values t1 "parsed_emails" ;;
     lens <- mapM py_len pe ;;
     t3 <- explode (select_rows t1 (map (fun n => (0 <? n)%nat) lens))
                   "parsed_emails" ;;
     Ok (S (S (S (S (next st)))),
         {| rows_before := List.length (rows t1);
            rows_after := List.length (rows t3);
            emails_found := list_sum lens |})).
Proof.
  unfold process_csv, copy, getitem, setitem, apply, len, getitem_mask,
    df_explode, df_rename, bind_py, load, save, new_frame, lift, ret, email_array.
  cbn [frames next]. store_simpl.
  destruct (column_values (frames st df) "pii.Email_Array") as [vals|e];
    [|reflexivity]. cbn [bind].
  destruct (mapM parse_email_array vals) as [parsed|e]; [|reflexivity]. cbn [bind].
  destruct (set_column (frames st df) "parsed_emails" parsed) as [t1|e];
    [|reflexivity]. cbn [bind frames next]. store_simpl.
  destruct (column_values t1 "parsed_emails") as [pe|e]; [|reflexivity]. cbn [bind].
  destruct (mapM py_len pe) as [lens|e]; [|reflexivity].
  cbn [bind frames next]. store_simpl.
  destruct (explode _ "parsed_emails") as [t3|e]; [|reflexivity].
  cbn [bind frames next fst]. store_simpl. reflexivity.
Qed.

Lemma process_csv_keeps_frames `{Decoder} (df r : nat) (st : store) :
  r < next st ->
  frames (snd (process_csv df st)) r = frames st r
  /\ next st <= next (snd (process_csv df st)).
Proof.
  intros Hr.
  unfold process_csv, copy, getitem, setitem, apply, len, getitem_mask,
    df_explode, df_rename, bind_py, load, save, new_frame, lift, ret.
  cbn [frames next]. store_simpl.
  destruct (column_values (frames st df) "pii.Email_Array") as [vals|e];
    [|cbn [snd frames next]; store_simpl; split; [reflexivity | lia]].
  destruct (mapM parse_email_array vals) as [parsed|e];
    [|cbn [snd frames next]; store_simpl; split; [reflexivity | lia]].
  destruct (set_column (frames st df) "parsed_emails" parsed) as [t1|e];
    [|cbn [snd frames next]; store_simpl; split; [reflexivity | lia]].
  cbn [frames next]. store_simpl.
  destruct (column_values t1 "parsed_emails") as [pe|e];
    [|cbn [snd frames next]; store_simpl; split; [reflexivity | lia]].
  destruct (mapM py_len pe) as [lens|e];
    [|cbn [snd frames next]; store_simpl; split; [reflexivity | lia]].
  cbn [frames next]. store_simpl.
  destruct (explode _ "parsed_emails") as [t3|e];
    cbn [snd frames next]; store_simpl; split; (reflexivity || lia).
Qed.

Lemma index_of_some (name : string) (cols : list string) :
  In name cols -> exists k, index_of name cols = Some k.
Proof.
  induction cols as [|c cols IH]; cbn; [tauto|]. intros Hin.
  destruct (String.eqb_spec c name) as [_|Hne]; [now exists 0|].
  destruct Hin as [Hc | Hin]; [contradiction|].
  destruct (IH Hin) as (k & ->). now exists (S k).
Qed.

Lemma index_of_columns_with (name : string) (cols : list string) :
  exists k, index_of name (columns_with cols name) = Some k.
Proof.
  unfold columns_with. destruct (index_of name cols) as [k|] eqn:Hk.
  - now exists k.
  - exists (List.length cols). now apply index_of_new.
Qed.

(** The steps after the parse, on a table of rows as wide as its
    header. *)
Lemma process_csv_parsed `{Decoder} (df : nat) (st : store)
    (vals parsed : list pyval) :
  well_formed (frames st df) ->
  email_array (frames st df) = Ok vals ->
  mapM parse_email_array vals = Ok parsed ->
  exists t1,
    columns t1 = columns_with (columns (frames st df)) "parsed_emails"
    /\ rows t1 = map (assign_row (columns (frames st df)) "parsed_emails")
                     (combine (rows (frames st df)) parsed)
    /\ fst (process_csv df st)
       = (lens <- mapM py_len parsed ;;
          t3 <- explode (select_rows t1 (map (fun n => (0 <? n)%nat) lens))
                        "parsed_emails" ;;
          Ok (S (S (S (S (next st)))),
              {| rows_before := List.length (rows t1);
                 rows_after := List.length (rows t3);
                 emails_found := list_sum lens |})).
Proof.
  intros Hwf Hv Hp.
  assert (Hlen : List.length parsed = List.length (rows (frames st df))).
  { rewrite (mapM_length _ _ _ Hp). apply (column_values_length _ _ _ Hv). }
  rewrite process_csv_fst, Hv. cbn [bind]. rewrite Hp. cbn [bind].
  unfold set_column. rewrite Hlen, Nat.eqb_refl. cbn [negb bind].
  exists {| columns := columns_with (columns (frames st df)) "parsed_emails";
            rows := map (assign_row (columns (frames st df)) "parsed_emails")
                        (combine (rows (frames st df)) parsed) |}.
  split; [reflexivity|]. split; [reflexivity|].
  destruct (index_of_columns_with "parsed_emails" (columns (frames st df)))
    as (k & Hk).
  rewrite (column_values_ok _ _ k) by exact Hk. cbn [rows bind].
  rewrite (assigned_column _ _ k _ _ Hwf Hlen Hk). reflexivity.
Qed.

Lemma explode_unique (t t3 : DataFrame) (column : string) :
  explode t column = Ok t3 -> unique (columns t) = true.
Proof.
  unfold explode. destruct (unique (columns t)); [reflexivity | discriminate].
Qed.

(** The run returns when the column is there, every cell parses, every
    parsed value has a length and the column names are distinct. *)
Lemma process_csv_returns `{Decoder} (df : nat) (st : store)
    (vals parsed : list pyval) (lens : list nat) :
  well_formed (frames st df) ->
  email_array (frames st df) = Ok vals ->
  mapM parse_email_array vals = Ok parsed ->
  mapM py_len parsed = Ok lens ->
  unique (columns_with (columns (frames st df)) "parsed_emails") = true ->
  exists out stats, fst (process_csv df st) = Ok (out, stats).
Proof.
  intros Hwf Hv Hp Hl Hu.
  destruct (process_csv_parsed df st vals parsed Hwf Hv Hp)
    as (t1 & Hc1 & _ & Heq).
  rewrite Heq, Hl. cbn [bind]. unfold explode. cbn [select_rows columns].
  rewrite Hc1, Hu. cbn [negb].
  destruct (index_of_columns_with "parsed_emails" (columns (frames st df)))
    as (k & ->).
  cbn [bind]. eauto.
Qed.

(** X7: on a table of rows as wide as its header, [process_csv] returns
    a table and counts exactly when the array column exists, every cell
    of it parses, every parsed value has a length, and the column names,
    [parsed_emails] among them, are distinct; in every other case it
    raises. *)
Theorem process_csv_returns_iff `{Decoder} (df : nat) (st : store) :
  well_formed (frames st df) ->
  (exists out stats, fst (process_csv df st) = Ok (out, stats))
  <-> (exists vals parsed lens,
         email_array (frames st df) = Ok vals
         /\ mapM parse_email_array vals = Ok parsed
         /\ mapM py_len parsed = Ok lens)
      /\ unique (columns_with (columns (frames st df)) "parsed_emails") = true.
Proof.
  intros Hwf. split.
  - intros (out & stats & Hrun).
    destruct (email_array (frames st df)) as [vals|e] eqn:Hv;
      [|rewrite process_csv_fst, Hv in Hrun; discriminate].
    destruct (mapM parse_email_array vals) as [parsed|e] eqn:Hp;
      [|rewrite process_csv_fst, Hv in Hrun; cbn [bind] in Hrun;
        rewrite Hp in Hrun; discriminate].
    destruct (process_csv_parsed df st vals parsed Hwf Hv Hp)
      as (t1 & Hc1 & _ & Heq).
    rewrite Heq in Hrun.
    destruct (mapM py_len parsed) as [lens|e] eqn:Hl; [|discriminate].
    cbn [bind] in Hrun.
    destruct (explode _ "parsed_emails") as [t3|e] eqn:Hex; [|discriminate].
    apply explode_unique in Hex. cbn [select_rows columns] in Hex.
    rewrite Hc1 in Hex. split; [|exact Hex].
    exists vals, parsed, lens. repeat split; assumption || reflexivity.
  - intros [(vals & parsed & lens & Hv & Hp & Hl) Hu].
    exact (process_csv_returns df st vals parsed lens Hwf Hv Hp Hl Hu).
Qed.

Lemma process_csv_returns_iff_witness :
  (exists out stats, fst (process_csv 0 (store_of leads)) = Ok (out, stats))
  <-> (exists vals parsed lens,
         email_array (frames (store_of leads) 0) = Ok vals
         /\ mapM parse_email_array vals = Ok parsed
         /\ mapM py_len parsed = Ok lens)
      /\ unique (columns_with (columns (frames (store_of leads) 0)) "parsed_emails")
         = true.
Proof. apply (process_csv_returns_iff 0 (store_of leads)). repeat constructor. Defined.

Lemma explode_cell_bounds (p : pyval) (n : nat) :
  py_len p = Ok n -> 0 < n -> 1 <= List.length (explode_cell p) <= n.
Proof.
  intros Hn Hpos. unfold explode_cell.
  destruct p; try discriminate Hn; cbn in Hn; injection Hn as <-;
    cbn [is_list_like py_list List.length];
    try lia; (destruct elts || destruct items); cbn in *;
    try rewrite length_map; lia.
Qed.

Lemma fan_out_length (cols : list string) (r : row) (p : pyval) :
  List.length (fan_out cols (r, p)) = List.length (explode_cell p).
Proof. unfold fan_out. apply length_map. Qed.

Lemma fan_out_rows_le (cols : list string) (rs : list row)
    (parsed : list pyval) (lens : list nat) :
  mapM py_len parsed = Ok lens ->
  let made := List.length
                (flat_map (fan_out cols)
                   (filter (fun rp => kept (snd rp)) (combine rs parsed))) in
  let found := list_sum (firstn (List.length rs) lens) in
  made <= found /\ (made = 0 -> found = 0).
Proof.
  cbn zeta. revert rs lens.
  induction parsed as [|p parsed IH]; intros rs lens Hm.
  - cbn in Hm. injection Hm as <-. rewrite combine_nil, firstn_nil. cbn. lia.
  - cbn in Hm. destruct (py_len p) as [n|e] eqn:Hn; [|discriminate]. cbn in Hm.
    destruct (mapM py_len parsed) as [ns|e] eqn:Hns; [|discriminate]. cbn in Hm.
    injection Hm as <-. destruct rs as [|r rs]; [cbn; lia|].
    cbn [combine filter snd List.length firstn].
    change (list_sum (n :: firstn (List.length rs) ns))
      with (n + list_sum (firstn (List.length rs) ns)).
    specialize (IH rs ns eq_refl).
    assert (Hk : kept p = (0 <? n)%nat) by (unfold kept; now rewrite Hn).
    rewrite Hk. destruct (Nat.ltb_spec 0 n) as [Hpos|Hz].
    + cbn [flat_map]. rewrite length_app, (fan_out_length cols r p).
      pose proof (explode_cell_bounds p n Hn Hpos). lia.
    + lia.
Qed.

(** X8: in a successful run on a table of rows as wide as its header,
    [rows_after] never exceeds [emails_found]. *)
Theorem rows_never_exceed_emails `{Decoder}
    (df out : nat) (stats : Stats) (st st' : store) :
  well_formed (frames st df) ->
  process_csv df st = (Ok (out, stats), st') ->
  rows_after stats <= emails_found stats.
Proof.
  intros Hwf Hrun.
  destruct (process_csv_result df out stats st st' Hwf Hrun)
    as (vals & parsed & lens & Hv & Hp & Hl & Hlen & _ & Hrows & _ & Ha & He).
  rewrite Ha, He, Hrows.
  destruct (fan_out_rows_le (columns (frames st df)) (rows (frames st df))
              parsed lens Hl) as [Hle _].
  rewrite firstn_all2 in Hle; [exact Hle|].
  rewrite (mapM_length _ _ _ Hl). lia.
Qed.

Lemma rows_never_exceed_emails_witness :
  exists out stats st',
    process_csv 0 (store_of quoted_lead) = (Ok (out, stats), st')
    /\ rows_after stats <= emails_found stats.
Proof.
  destruct (process_csv 0 (store_of quoted_lead)) as [[[out stats]|e] st'] eqn:Hrun;
    [|vm_compute in Hrun; discriminate Hrun].
  exists out, stats, st'. split; [reflexivity|].
  apply (rows_never_exceed_emails 0 out stats (store_of quoted_lead) st');
    [repeat constructor | exact Hrun].
Defined.

(** X10: in a successful run on a table of rows as wide as its header,
    the output table has no rows exactly when no e-mail was found. *)
Theorem no_rows_iff_no_emails `{Decoder}
    (df out : nat) (stats : Stats) (st st' : store) :
  well_formed (frames st df) ->
  process_csv df st = (Ok (out, stats), st') ->
  (rows (frames st' out) = [] <-> emails_found stats = 0)
  /\ (rows_after stats = 0 <-> emails_found stats = 0).
Proof.
  intros Hwf Hrun.
  destruct (process_csv_result df out stats st st' Hwf Hrun)
    as (vals & parsed & lens & Hv & Hp & Hl & Hlen & _ & Hrows & _ & Ha & He).
  destruct (fan_out_rows_le (columns (frames st df)) (rows (frames st df))
              parsed lens Hl) as [Hle Hz].
  rewrite firstn_all2 in Hle, Hz by (rewrite (mapM_length _ _ _ Hl); lia).
  rewrite <- Hrows in Hle, Hz. rewrite <- He in Hle, Hz.
  assert (Hiff : rows_after stats = 0 <-> emails_found stats = 0).
  { rewrite Ha. split; [exact Hz | lia]. }
  split; [|exact Hiff].
  rewrite <- Hiff, Ha. split; [now intros -> | apply length_zero_iff_nil].
Qed.

Lemma no_rows_iff_no_emails_witness :
  exists out stats st',
    process_csv 0 (store_of no_emails) = (Ok (out, stats), st')
    /\ (rows (frames st' out) = [] <-> emails_found stats = 0)
    /\ (rows_after stats = 0 <-> emails_found stats = 0).
Proof.
  destruct (process_csv 0 (store_of no_emails)) as [[[out stats]|e] st'] eqn:Hrun;
    [|vm_compute in Hrun; discriminate Hrun].
  exists out, stats, st'. split; [reflexivity|].
  apply (no_rows_iff_no_emails 0 out stats (store_of no_emails) st');
    [repeat constructor | exact Hrun].
Defined.

Lemma list_like_rows_match_emails_witness :
  exists out stats st',
    process_csv 0 (store_of leads) = (Ok (out, stats), st')
    /\ rows_after stats = emails_found stats.
Proof.
  destruct (process_csv 0 (store_of leads)) as [[[out stats]|e] st'] eqn:Hrun;
    [|vm_compute in Hrun; discriminate Hrun].
  exists out, stats, st'. split; [reflexivity|].
  apply (list_like_rows_match_emails 0 out stats (store_of leads) st');
    [repeat constructor | exact Hrun |].
  intros vals parsed Hv Hp. vm_compute in Hv. injection Hv as <-.
  vm_compute in Hp. injection Hp as <-. repeat constructor.
Defined.



Lemma unique_repeated (x : string) (cols : list string) :
  In x cols -> unique (cols ++ [x]) = false.
Proof.
  induction cols as [|c cols IH]; cbn [In]; [tauto|]. intros Hin.
  cbn [app unique]. destruct (String.eqb_spec c x) as [->|Hne].
  - rewrite existsb_app. cbn [existsb]. rewrite String.eqb_refl.
    now rewrite !orb_true_r.
  - destruct Hin as [Hc | Hin]; [contradiction|].
    rewrite (IH Hin). apply andb_false_r.
Qed.

(** X12: when the table already has a column named [email] and none
    named [parsed_emails], the output of a successful run has two columns
    named [email]: its column names are not distinct. *)
Theorem old_email_column_is_doubled `{Decoder}
    (df out : nat) (stats : Stats) (st st' : store) :
  well_formed (frames st df) ->
  In "email" (columns (frames st df)) ->
  ~ In "parsed_emails" (columns (frames st df)) ->
  process_csv df st = (Ok (out, stats), st') ->
  unique (columns (frames st' out)) = false.
Proof.
  intros Hwf Hin Hnew Hrun.
  destruct (process_csv_result df out stats st st' Hwf Hrun)
    as (vals & parsed & lens & _ & _ & _ & _ & Hcols & _).
  rewrite Hcols. unfold columns_with. rewrite (index_of_none _ _ Hnew).
  rewrite map_app, (map_rename_same _ _ _ Hnew).
  apply unique_repeated. exact Hin.
Qed.

Lemma old_email_column_is_doubled_witness :
  exists out stats st',
    process_csv 0 (store_of with_old_email) = (Ok (out, stats), st')
    /\ unique (columns (frames st' out)) = false.
Proof.
  destruct (process_csv 0 (store_of with_old_email))
    as [[[out stats]|e] st'] eqn:Hrun;
    [|vm_compute in Hrun; discriminate Hrun].
  exists out, stats, st'. split; [reflexivity|].
  apply (old_email_column_is_doubled 0 out stats (store_of with_old_email) st');
    [repeat constructor | vm_compute; auto | vm_compute; intuition discriminate
    | exact Hrun].
Defined.

Lemma mapM_first_failure {A B : Type} (f : A -> result B)
    (good : list A) (bad : A) (rest : list A) (e : exn) :
  Forall (fun a => exists b, f a = Ok b) good ->
  f bad = Raise e ->
  mapM f (good ++ bad :: rest) = Raise e.
Proof.
  intros Hgood Hbad. induction Hgood as [|a good (b & Hb) _ IH]; cbn [app];
    rewrite mapM_cons.
  - now rewrite Hbad.
  - rewrite Hb, IH. reflexivity.
Qed.

(** X13: the run raises the exception of the first cell, in row order,
    that [parse_email_array] fails on; the cells after it are not
    looked at. *)
Theorem first_failing_cell_decides `{Decoder} (df : nat) (st : store)
    (good rest : list pyval) (bad : pyval) (e : exn) :
  email_array (frames st df) = Ok (good ++ bad :: rest) ->
  Forall (fun v => exists p, parse_email_array v = Ok p) good ->
  parse_email_array bad = Raise e ->
  fst (process_csv df st) = Raise e.
Proof.
  intros Hv Hgood Hbad. rewrite process_csv_fst, Hv. cbn [bind].
  now rewrite (mapM_first_failure _ good bad rest e Hgood Hbad).
Qed.

Lemma first_failing_cell_decides_witness :
  fst (process_csv 0 (store_of numeric_leads)) = Raise TypeError.
Proof.
  apply (first_failing_cell_decides 0 (store_of numeric_leads)
           [PyStr "[a@x.com]"] [] (PyInt 5) TypeError).
  - reflexivity.
  - constructor; [|constructor]. eexists. vm_compute. reflexivity.
  - reflexivity.
Defined.

Lemma py_len_raises (p : pyval) (e : exn) : py_len p = Raise e -> e = TypeError.
Proof. destruct p; cbn; intros H; congruence. Qed.

Lemma mapM_py_len_fails (parsed : list pyval) (p : pyval) :
  In p parsed -> py_len p = Raise TypeError ->
  mapM py_len parsed = Raise TypeError.
Proof.
  induction parsed as [|q parsed IH]; cbn [In]; [tauto|]. intros Hin Hp.
  rewrite mapM_cons. destruct (py_len q) as [n|e] eqn:Hq.
  - destruct Hin as [-> | Hin]; [congruence|]. now rewrite (IH Hin Hp).
  - cbn [bind]. f_equal. apply (py_len_raises q e Hq).
Qed.

(** X14: on a table of rows as wide as its header, when every cell
    parses but one parsed value has no length, as a number, a boolean or
    [None] has none, the run raises [TypeError]. *)
Theorem value_without_length_fails `{Decoder} (df : nat) (st : store)
    (vals parsed : list pyval) (p : pyval) :
  well_formed (frames st df) ->
  email_array (frames st df) = Ok vals ->
  mapM parse_email_array vals = Ok parsed ->
  In p parsed -> py_len p = Raise TypeError ->
  fst (process_csv df st) = Raise TypeError.
Proof.
  intros Hwf Hv Hp Hin Hlen.
  destruct (process_csv_parsed df st vals parsed Hwf Hv Hp) as (t1 & _ & _ & ->).
  now rewrite (mapM_py_len_fails parsed p Hin Hlen).
Qed.

Lemma value_without_length_fails_witness :
  fst (process_csv 0 (store_of spelled_number)) = Raise TypeError.
Proof.
  apply (value_without_length_fails 0 (store_of spelled_number)
           [PyStr "[a@x.com]"; PyStr "5"]
           [PyList [PyStr "a@x.com"]; PyInt 5] (PyInt 5)).
  - repeat constructor.
  - reflexivity.
  - vm_compute. reflexivity.
  - right. left. reflexivity.
  - reflexivity.
Defined.

(** X15: the table that a successful run returns is a new object: its
    reference was unused before the call. *)
Theorem result_is_a_new_table `{Decoder}
    (df out : nat) (stats : Stats) (st st' : store) :
  process_csv df st = (Ok (out, stats), st') ->
  next st <= out /\ out < next st'.
Proof.
  unfold process_csv, copy, getitem, setitem, apply, len, getitem_mask,
    df_explode, df_rename, bind_py, load, save, new_frame, lift, ret.
  cbn [frames next]. store_simpl.
  destruct (column_values (frames st df) "pii.Email_Array") as [vals|e];
    [|discriminate].
  destruct (mapM parse_email_array vals) as [parsed|e]; [|discriminate].
  destruct (set_column (frames st df) "parsed_emails" parsed) as [t1|e];
    [|discriminate].
  cbn [frames next]. store_simpl.
  destruct (column_values t1 "parsed_emails") as [pe|e]; [|discriminate].
  destruct (mapM py_len pe) as [lens|e]; [|discriminate].
  cbn [frames next]. store_simpl.
  destruct (explode _ "parsed_emails") as [t3|e]; [|discriminate].
  cbn [frames next]. intros [= <- <- <-]. cbn [next]. lia.
Qed.

Lemma result_is_a_new_table_witness :
  exists out stats st',
    process_csv 0 (store_of leads) = (Ok (out, stats), st')
    /\ next (store_of leads) <= out /\ out < next st'.
Proof.
  destruct (process_csv 0 (store_of leads)) as [[[out stats]|e] st'] eqn:Hrun;
    [|vm_compute in Hrun; discriminate Hrun].
  exists out, stats, st'. split; [reflexivity|].
  apply (result_is_a_new_table 0 out stats (store_of leads) st'). exact Hrun.
Defined.

Lemma mapM_empty_cells `{Decoder} (vals : list pyval) :
  Forall (fun v => pd_isna v = Ok true \/ v = PyStr "[]") vals ->
  mapM parse_email_array vals = Ok (map (fun _ => PyList []) vals).
Proof.
  induction 1 as [|v vals Hv _ IH]; [reflexivity|].
  assert (Hp : parse_email_array v = Ok (PyList [])).
  { destruct Hv as [Hna | ->]; [apply parse_null; exact Hna | reflexivity]. }
  cbn [map]. rewrite mapM_cons, Hp, IH. reflexivity.
Qed.

Lemma mapM_len_empty (vals : list pyval) :
  mapM py_len (map (fun _ => PyList []) vals) = Ok (map (fun _ => 0) vals).
Proof.
  induction vals as [|v vals IH]; [reflexivity|].
  cbn [map]. rewrite mapM_cons, IH. reflexivity.
Qed.

Lemma list_sum_zeros {A : Type} (vals : list A) :
  list_sum (map (fun _ => 0) vals) = 0.
Proof. induction vals; cbn; auto. Qed.

Lemma no_row_kept (rs : list row) (vals : list pyval) :
  filter (fun rp : row * pyval => kept (snd rp))
         (combine rs (map (fun _ => PyList []) vals)) = [].
Proof.
  revert vals. induction rs as [|r rs IH]; intros [|v vals]; try reflexivity.
  cbn [map combine filter snd]. cbn. apply IH.
Qed.

(** X16: on a table of rows as wide as its header and with distinct
    column names, when every cell of the array column is null, NaN or the
    text [[]], the run succeeds: the output table has no rows, and the
    counts are the number of source records, zero rows and zero
    e-mails. *)
Theorem empty_cells_give_an_empty_table `{Decoder} (df : nat) (st : store)
    (vals : list pyval) :
  well_formed (frames st df) ->
  unique (columns_with (columns (frames st df)) "parsed_emails") = true ->
  email_array (frames st df) = Ok vals ->
  Forall (fun v => pd_isna v = Ok true \/ v = PyStr "[]") vals ->
  exists out st',
    process_csv df st
    = (Ok (out, {| rows_before := List.length (rows (frames st df));
                   rows_after := 0;
                   emails_found := 0 |}), st')
    /\ rows (frames st' out) = [].
Proof.
  intros Hwf Hu Hv Hempty.
  pose proof (mapM_empty_cells vals Hempty) as Hp.
  pose proof (mapM_len_empty vals) as Hl.
  destruct (process_csv_returns df st vals _ _ Hwf Hv Hp Hl Hu)
    as (out & stats & Hret).
  destruct (process_csv df st) as [res st'] eqn:Hrun. cbn [fst] in Hret. subst res.
  destruct (process_csv_result df out stats st st' Hwf Hrun)
    as (vals' & parsed' & lens' & Hv' & Hp' & Hl' & _ & _ & Hrows & Hb & Ha & He).
  rewrite Hv in Hv'. injection Hv' as <-.
  rewrite Hp in Hp'. injection Hp' as <-.
  rewrite Hl in Hl'. injection Hl' as <-.
  rewrite no_row_kept in Hrows. cbn [flat_map] in Hrows.
  rewrite Hrows in Ha. cbn [List.length] in Ha.
  rewrite list_sum_zeros in He.
  exists out, st'. split; [|exact Hrows].
  destruct stats as [b a f]. cbn [rows_before rows_after emails_found] in *.
  now subst.
Qed.

Lemma empty_cells_give_an_empty_table_witness :
  exists out st',
    process_csv 0 (store_of no_emails)
    = (Ok (out, {| rows_before := List.length (rows (frames (store_of no_emails) 0));
                   rows_after := 0;
                   emails_found := 0 |}), st')
    /\ rows (frames st' out) = [].
Proof.
  apply (empty_cells_give_an_empty_table 0 (store_of no_emails)
           [PyFloat Fnan; PyStr "[]"]).
  - repeat constructor.
  - reflexivity.
  - reflexivity.
  - constructor; [left; reflexivity|]. constructor; [right; reflexivity|].
    constructor.
Defined.

(* ================================================================== *)
(** * More on [main] *)

Lemma mapM_bind {A B C : Type} (f : A -> result B) (g : B -> result C)
    (l : list A) (l1 : list B) (l2 : list C) :
  mapM f l = Ok l1 -> mapM g l1 = Ok l2 ->
  mapM (fun x => v <- f x ;; g v) l = Ok l2.
Proof.
  revert l1 l2. induction l as [|a l IH]; intros l1 l2 Hf Hg.
  - cbn in Hf. injection Hf as <-. cbn in Hg. injection Hg as <-. reflexivity.
  - rewrite mapM_cons in Hf. destruct (f a) as [b|e] eqn:Hb; [|discriminate].
    cbn [bind] in Hf. destruct (mapM f l) as [bs|e] eqn:Hbs; [|discriminate].
    cbn [bind] in Hf. injection Hf as <-.
    rewrite mapM_cons in Hg. destruct (g b) as [c|e] eqn:Hc; [|discriminate].
    cbn [bind] in Hg. destruct (mapM g bs) as [cs|e] eqn:Hcs; [|discriminate].
    cbn [bind] in Hg. injection Hg as <-.
    rewrite mapM_cons, Hb. cbn [bind]. rewrite Hc, (IH bs cs eq_refl Hcs).
    reflexivity.
Qed.

(** [main] on an uploaded table, in terms of [process_csv]. *)
Lemma main_uploaded `{Decoder} (table : DataFrame) :
  main (Some table) empty_store
  = if negb (existsb (String.eqb "pii.Email_Array") (columns table)) then
      (Ok (upload_page table ++ [st_error missing_column_message]),
       store_of table)
    else
      match process_csv 0 (store_of table) with
      | (Ok (out, stats), st1) =>
          match (vals <- column_values (frames st1 0) "pii.Email_Array" ;;
                 mapM (fun x => v <- parse_email_array x ;; py_len v) vals) with
          | Ok counts =>
              (Ok (upload_page table
                   ++ [st_spinner "Processing CSV...";
                       st_success stats;
                       st_subheader "Processed Data (First 5 Rows)";
                       st_dataframe {| columns := columns (frames st1 out);
                                       rows := firstn 5 (rows (frames st1 out)) |};
                       st_download_button "Download Processed CSV"
                         (frames st1 out) "processed_leads.csv" "text/csv";
                       st_expander "View Data Details";
                       st_subheader "Email Distribution";
                       st_distribution counts]), st1)
          | Raise e => (Raise e, st1)
          end
      | (Raise e, st1) => (Raise e, st1)
      end.
Proof.
  unfold main, upload_page.
  unfold bind_py at 1. unfold new_frame at 1. cbn [frames next empty_store].
  unfold bind_py at 1. unfold head at 1. unfold bind_py at 1.
  unfold load at 1. unfold ret at 1. cbn [frames]. rewrite update_same.
  unfold bind_py at 1. unfold load at 1. cbn [frames]. rewrite update_same.
  destruct (negb (existsb (String.eqb "pii.Email_Array") (columns table)));
    [reflexivity|].
  unfold bind_py at 1.
  change {| frames := update (fun _ : nat => empty_frame) 0 table; next := 1 |}
    with (store_of table).
  destruct (process_csv 0 (store_of table)) as [[[out stats]|e] st1];
    [|reflexivity].
  cbv [bind_py head load ret getitem apply lift].
  destruct (column_values (frames st1 0) "pii.Email_Array") as [vals|e];
    [|reflexivity]. cbn [bind].
  destruct (mapM _ vals); reflexivity.
Qed.

Lemma store_of_frame (table : DataFrame) : frames (store_of table) 0 = table.
Proof. reflexivity. Qed.

(** X17: whatever [main] does with an uploaded table, page shown or
    exception raised, the uploaded table itself is the same afterwards. *)
Theorem uploaded_table_survives `{Decoder} (table : DataFrame) :
  frames (snd (main (Some table) empty_store)) 0 = table.
Proof.
  rewrite main_uploaded.
  destruct (negb (existsb (String.eqb "pii.Email_Array") (columns table)));
    [reflexivity|].
  destruct (process_csv_keeps_frames 0 0 (store_of table)) as [Hk _];
    [cbn; lia|].
  rewrite store_of_frame in Hk.
  destruct (process_csv 0 (store_of table)) as [[[out stats]|e] st1];
    cbn [snd] in Hk; [|exact Hk].
  destruct (vals <- column_values (frames st1 0) "pii.Email_Array" ;;
            mapM (fun x => v <- parse_email_array x ;; py_len v) vals);
    exact Hk.
Qed.

(** X18: when [process_csv] succeeds on the uploaded table, of rows as
    wide as its header, the page of [main] is the upload page followed,
    in this order, by the spinner, the success message with the counts,
    the heading and the first five rows of the processed table, the
    download of the processed table as [processed_leads.csv], and the
    expander with the heading [Email Distribution] and the distribution;
    the numbers of e-mails per lead that it computes for the
    distribution, one per source record, add up to the [emails_found] it
    reported. *)
Theorem success_page_agrees_with_counts `{Decoder}
    (table : DataFrame) (out : nat) (stats : Stats) (st1 : store) :
  well_formed table ->
  process_csv 0 (store_of table) = (Ok (out, stats), st1) ->
  exists counts,
    main (Some table) empty_store
    = (Ok (upload_page table
           ++ [st_spinner "Processing CSV...";
               st_success stats;
               st_subheader "Processed Data (First 5 Rows)";
               st_dataframe {| columns := columns (frames st1 out);
                               rows := firstn 5 (rows (frames st1 out)) |};
               st_download_button "Download Processed CSV"
                 (frames st1 out) "processed_leads.csv" "text/csv";
               st_expander "View Data Details";
               st_subheader "Email Distribution";
               st_distribution counts]), st1)
    /\ List.length counts = rows_before stats
    /\ list_sum counts = emails_found stats.
Proof.
  intros Hwf Hrun.
  destruct (process_csv_result 0 out stats (store_of table) st1 Hwf Hrun)
    as (vals & parsed & lens & Hv & Hp & Hl & Hlen & _ & _ & Hb & _ & He).
  rewrite store_of_frame in Hv, Hlen, Hb.
  destruct (process_csv_keeps_frames 0 0 (store_of table)) as [Hk _];
    [cbn; lia|].
  rewrite Hrun, store_of_frame in Hk. cbn [snd] in Hk.
  exists lens. split; [|split].
  - rewrite main_uploaded.
    destruct (existsb (String.eqb "pii.Email_Array") (columns table)) eqn:Hcol.
    + cbn [negb]. rewrite Hrun, Hk. unfold email_array in Hv. rewrite Hv.
      cbn [bind]. rewrite (mapM_bind _ _ vals parsed lens Hp Hl). reflexivity.
    + apply existsb_index_of in Hcol. unfold email_array, column_values in Hv.
      rewrite Hcol in Hv. discriminate.
  - rewrite Hb, (mapM_length _ _ _ Hl). exact Hlen.
  - symmetry. exact He.
Qed.

Lemma success_page_agrees_with_counts_witness :
  exists out stats st1 counts,
    process_csv 0 (store_of leads) = (Ok (out, stats), st1)
    /\ main (Some leads) empty_store
       = (Ok (upload_page leads
              ++ [st_spinner "Processing CSV...";
                  st_success stats;
                  st_subheader "Processed Data (First 5 Rows)";
                  st_dataframe {| columns := columns (frames st1 out);
                                  rows := firstn 5 (rows (frames st1 out)) |};
                  st_download_button "Download Processed CSV"
                    (frames st1 out) "processed_leads.csv" "text/csv";
                  st_expander "View Data Details";
                  st_subheader "Email Distribution";
                  st_distribution counts]), st1)
    /\ List.length counts = rows_before stats
    /\ list_sum counts = emails_found stats.
Proof.
  destruct (process_csv 0 (store_of leads)) as [[[out stats]|e] st1] eqn:Hrun;
    [|vm_compute in Hrun; discriminate Hrun].
  destruct (success_page_agrees_with_counts leads out stats st1) as (counts & Hc);
    [repeat constructor | exact Hrun |].
  exists out, stats, st1, counts. split; [reflexivity | exact Hc].
Defined.

(** X19: when the array column is there and [process_csv] raises,
    [main] raises the same exception: no success message, no processed
    table and no download are shown. *)
Theorem processing_error_ends_main `{Decoder} (table : DataFrame) (e : exn) :
  existsb (String.eqb "pii.Email_Array") (columns table) = true ->
  fst (process_csv 0 (store_of table)) = Raise e ->
  fst (main (Some table) empty_store) = Raise e.
Proof.
  intros Hcol Hrun. rewrite main_uploaded, Hcol. cbn [negb].
  destruct (process_csv 0 (store_of table)) as [[[out stats]|e'] st1];
    cbn [fst] in *; [discriminate | now injection Hrun as ->].
Qed.

Lemma processing_error_ends_main_witness :
  fst (main (Some spelled_number) empty_store) = Raise TypeError.
Proof.
  apply (processing_error_ends_main spelled_number TypeError);
    vm_compute; reflexivity.
Defined.

(** X20: a page that [main] completes for an uploaded table shows the
    missing-column error exactly when the table lacks the array column,
    and a success message exactly when it has it: never both, never
    neither. *)
Theorem page_shows_error_or_success `{Decoder}
    (table : DataFrame) (page : list st_call) (st' : store) :
  main (Some table) empty_store = (Ok page, st') ->
  (In (st_error missing_column_message) page
   <-> existsb (String.eqb "pii.Email_Array") (columns table) = false)
  /\ ((exists stats, In (st_success stats) page)
      <-> existsb (String.eqb "pii.Email_Array") (columns table) = true).
Proof.
  rewrite main_uploaded.
  destruct (existsb (String.eqb "pii.Email_Array") (columns table)); cbn [negb].
  - destruct (process_csv 0 (store_of table)) as [[[out stats]|e] st1];
      [|discriminate].
    destruct (vals <- column_values (frames st1 0) "pii.Email_Array" ;;
              mapM (fun x => v <- parse_email_array x ;; py_len v) vals)
      as [counts|e]; [|discriminate].
    intros [= <- <-]. split; split.
    + intros Hin. exfalso. unfold upload_page, page_head in Hin.
      cbn [app In] in Hin.
      repeat (destruct Hin as [Hin | Hin]; [discriminate Hin|]). exact Hin.
    + discriminate.
    + reflexivity.
    + intros _. exists stats. unfold upload_page, page_head. cbn [app In].
      do 6 right. left. reflexivity.
  - intros [= <- <-]. split; split.
    + reflexivity.
    + intros _. unfold upload_page, page_head. cbn [app In].
      do 5 right. left. reflexivity.
    + intros [stats Hin]. exfalso. unfold upload_page, page_head in Hin.
      cbn [app In] in Hin.
      repeat (destruct Hin as [Hin | Hin]; [discriminate Hin|]). exact Hin.
    + discriminate.
Qed.

Lemma page_shows_error_or_success_witness :
  exists page st',
    main (Some no_array) empty_store = (Ok page, st')
    /\ (In (st_error missing_column_message) page
        <-> existsb (String.eqb "pii.Email_Array") (columns no_array) = false)
    /\ ((exists stats, In (st_success stats) page)
        <-> existsb (String.eqb "pii.Email_Array") (columns no_array) = true).
Proof.
  destruct (main (Some no_array) empty_store) as [[page|e] st'] eqn:Hrun;
    [|vm_compute in Hrun; discriminate Hrun].
  exists page, st'. split; [reflexivity|].
  apply (page_shows_error_or_success no_array page st'). exact Hrun.
Defined.
